(** * A shallow embedding of the S3/SQS ingress of talaria
      (internal/ingress/s3sqs/s3sqs.go).

    The model has three layers:
    - [query_unescape]: Go's [url.QueryUnescape], used by [drain] on
      every record key;
    - [acknowledge], [drain_message] and [ingest_after_load]: the
      sequential bodies of [drain] (one message) and of [ingest];
    - [step]: the interleaving semantics of the goroutines that run
      concurrently: the [drain] loop, the [ingest] goroutines and a
      caller of [Close], sharing the weighted semaphore [limit]. *)

From stdpp Require Import base list relations strings.
From Stdlib Require Import String Ascii.

Open Scope string_scope.

(* ------------------------------------------------------------------ *)
(** ** [url.QueryUnescape] (Go standard library, mode
       [encodeQueryComponent]) *)

Definition in_range (lo hi n : nat) : bool := Nat.leb lo n && Nat.leb n hi.

(** [ishex]: '0'..'9', 'a'..'f', 'A'..'F'. *)
Definition ishex (c : ascii) : bool :=
  let n := nat_of_ascii c in
  in_range 48 57 n || in_range 97 102 n || in_range 65 70 n.

(** [unhex]. *)
Definition unhex (c : ascii) : nat :=
  let n := nat_of_ascii c in
  if in_range 48 57 n then n - 48
  else if in_range 97 102 n then n - 97 + 10
  else if in_range 65 70 n then n - 65 + 10
  else 0.

(** First loop of [unescape]: counts the escapes [n] and records
    [hasPlus]; a '%' not followed by two hex digits is an
    [EscapeError] ([None]). *)
Fixpoint unescape_scan (s : string) (n : nat) (hasPlus : bool)
  : option (nat * bool) :=
  match s with
  | EmptyString => Some (n, hasPlus)
  | String c rest =>
      if Ascii.eqb c "%"%char then
        match rest with
        | String h1 (String h2 rest') =>
            if ishex h1 && ishex h2 then unescape_scan rest' (S n) hasPlus
            else None
        | _ => None
        end
      else if Ascii.eqb c "+"%char then unescape_scan rest n true
      else unescape_scan rest n hasPlus
  end.

(** Second loop of [unescape]: writes [unhex(s[i+1])<<4 | unhex(s[i+2])]
    for an escape, ' ' for '+', the byte itself otherwise. *)
Fixpoint unescape_build (s : string) : string :=
  match s with
  | EmptyString => EmptyString
  | String c rest =>
      if Ascii.eqb c "%"%char then
        match rest with
        | String h1 (String h2 rest') =>
            String (ascii_of_nat (unhex h1 * 16 + unhex h2))
                   (unescape_build rest')
        | _ => EmptyString
        end
      else if Ascii.eqb c "+"%char then String " "%char (unescape_build rest)
      else String c (unescape_build rest)
  end.

(** [url.QueryUnescape s = unescape(s, encodeQueryComponent)];
    [None] is the [EscapeError]. *)
Definition query_unescape (s : string) : option string :=
  match unescape_scan s 0 false with
  | None => None
  | Some (n, hasPlus) =>
      if Nat.eqb n 0 && negb hasPlus then Some s else Some (unescape_build s)
  end.

(* ------------------------------------------------------------------ *)
(** ** Data: SQS messages, S3 event records, monitor events *)

(** The fields of [*awssqs.Message] the ingress reads. *)
Record message := {
  msg_body : option string;      (* msg.Body *)
  msg_receipt : option string    (* msg.ReceiptHandle *)
}.

(** The fields of one element of [events.Records] the ingress reads:
    [event.S3.Bucket.Name] and [event.S3.Object.Key]. *)
Record record := {
  rec_bucket : string;
  rec_key : string
}.

(** Which call site reported an error to [s.monitor.Error]. *)
Inductive err_kind := ErrDelete | ErrUnmarshal | ErrUnescape | ErrLoad.

(** Observable calls to the collaborators, in the order they happen. *)
Inductive event :=
  | EDelete (m : message)              (* s.sqs.DeleteMessage(msg) *)
  | EUnmarshal (body : string)         (* json.Unmarshal(body, &events) *)
  | EError (k : err_kind)              (* s.monitor.Error(..) *)
  | ELoad (uri : string)               (* s.loader.Load(ctx, uri) *)
  | ECount (tag name : string)         (* s.monitor.Count1(tag, name) *)
  | EHandle (data : string)            (* handler(data) *)
  | EDuration (tag name : string)      (* s.monitor.Duration(tag, name, t) *)
  | ESqsClose.                         (* s.sqs.Close() *)

Definition ctxTag : string := "s3sqs".

(** [var concurrency = int64(runtime.NumCPU() * 3)]. *)
Definition concurrency (numcpu : nat) : nat := numcpu * 3.

(** [fmt.Sprintf("s3://%s/%s", bucket, key)]. *)
Definition locator (bucket key : string) : string :=
  ("s3://" ++ bucket ++ "/" ++ key)%string.

(** Outcome of [s.loader.Load]: the payload, or an error. *)
Inductive load_result := LoadOk (data : string) | LoadErr.

(** What an [ingest] goroutine still has to do once [Load] returned.
    The deferred calls run last-in first-out: [s.limit.Release(1)] was
    deferred after [s.monitor.Duration(..)], so it runs first. *)
Inductive action :=
  | ACount (tag name : string)
  | AError                       (* s.monitor.Error(err) for the Load error *)
  | AHandle (data : string)
  | ARelease
  | ADuration (tag name : string).

(** The rest of [ingest] after [data, err := s.loader.Load(..)]. *)
Definition ingest_after_load (r : load_result) : list action :=
  match r with
  | LoadErr =>
      (* s.monitor.Count1(ctxTag, "s3readerror"); s.monitor.Error(err);
         return, then the deferred calls *)
      [ACount ctxTag "s3readerror"; AError; ARelease;
       ADuration ctxTag "s3sqs"]
  | LoadOk data =>
      (* _ = handler(data), then the deferred calls *)
      [AHandle data; ARelease; ADuration ctxTag "s3sqs"]
  end.

(** Where an [ingest] goroutine is. *)
Inductive tpc :=
  | TLoad                        (* about to call s.loader.Load *)
  | TRun (acts : list action).   (* Load returned; [acts] remain *)

Record task := {
  t_uri : string;
  t_pc : tpc
}.

(** Where the [drain] goroutine is. *)
Inductive dpc :=
  | DNotStarted                  (* Range not called yet *)
  | DSelect                      (* at the select of the for loop *)
  | DRecords (rs : list record)  (* in the range over the records *)
  | DSpawn (bucket key : string) (rs : list record)
                                 (* Acquire succeeded, before go s.ingest *)
  | DExit.                       (* returned on ctx.Done() *)

(** Where a caller of [Close] is. *)
Inductive cpc :=
  | CIdle          (* Close not called *)
  | CSqsClose      (* s.cancel() done, before s.sqs.Close() *)
  | CAcquire       (* waiting in s.limit.Acquire(Background, concurrency) *)
  | CReturned      (* Close returned *)
  | CPanicked.     (* s.cancel was nil: the call panicked *)

Record state := {
  st_size : nat;             (* size of s.limit *)
  st_cur : nat;              (* units of s.limit currently held *)
  st_cancel_set : bool;      (* s.cancel != nil *)
  st_cancelled : bool;       (* ctx.Done() is closed *)
  st_queue : list (option message);  (* what the SQS channel yields *)
  st_drain : dpc;
  st_tasks : list task;
  st_close : cpc;
  st_log : list event
}.

Definition set_cur (n : nat) (s : state) : state :=
  {| st_size := st_size s; st_cur := n; st_cancel_set := st_cancel_set s;
     st_cancelled := st_cancelled s; st_queue := st_queue s;
     st_drain := st_drain s; st_tasks := st_tasks s; st_close := st_close s;
     st_log := st_log s |}.

Definition set_drain (d : dpc) (s : state) : state :=
  {| st_size := st_size s; st_cur := st_cur s; st_cancel_set := st_cancel_set s;
     st_cancelled := st_cancelled s; st_queue := st_queue s;
     st_drain := d; st_tasks := st_tasks s; st_close := st_close s;
     st_log := st_log s |}.

Definition set_tasks (ts : list task) (s : state) : state :=
  {| st_size := st_size s; st_cur := st_cur s; st_cancel_set := st_cancel_set s;
     st_cancelled := st_cancelled s; st_queue := st_queue s;
     st_drain := st_drain s; st_tasks := ts; st_close := st_close s;
     st_log := st_log s |}.

Definition set_close (c : cpc) (s : state) : state :=
  {| st_size := st_size s; st_cur := st_cur s; st_cancel_set := st_cancel_set s;
     st_cancelled := st_cancelled s; st_queue := st_queue s;
     st_drain := st_drain s; st_tasks := st_tasks s; st_close := c;
     st_log := st_log s |}.

Definition set_queue (q : list (option message)) (s : state) : state :=
  {| st_size := st_size s; st_cur := st_cur s; st_cancel_set := st_cancel_set s;
     st_cancelled := st_cancelled s; st_queue := q;
     st_drain := st_drain s; st_tasks := st_tasks s; st_close := st_close s;
     st_log := st_log s |}.

Definition cancel (s : state) : state :=
  {| st_size := st_size s; st_cur := st_cur s; st_cancel_set := st_cancel_set s;
     st_cancelled := true; st_queue := st_queue s;
     st_drain := st_drain s; st_tasks := st_tasks s; st_close := st_close s;
     st_log := st_log s |}.

Definition emit (ev : list event) (s : state) : state :=
  {| st_size := st_size s; st_cur := st_cur s; st_cancel_set := st_cancel_set s;
     st_cancelled := st_cancelled s; st_queue := st_queue s;
     st_drain := st_drain s; st_tasks := st_tasks s; st_close := st_close s;
     st_log := (st_log s ++ ev)%list |}.

(** [NewWith]: the semaphore is [semaphore.NewWeighted(concurrency)];
    [s.cancel] is nil until [Range] sets it. *)
Definition new_with (numcpu : nat) : state :=
  {| st_size := concurrency numcpu; st_cur := 0; st_cancel_set := false;
     st_cancelled := false; st_queue := [];
     st_drain := DNotStarted; st_tasks := []; st_close := CIdle;
     st_log := [] |}.

(** [Range]: a fresh cancellation context, [s.cancel = cancel], the
    channel [queue] of [StartPolling], and [go s.drain(..)]. *)
Definition range (queue : list (option message)) (s : state) : state :=
  {| st_size := st_size s; st_cur := st_cur s; st_cancel_set := true;
     st_cancelled := false; st_queue := queue;
     st_drain := DSelect; st_tasks := st_tasks s; st_close := st_close s;
     st_log := st_log s |}.

(** [acknowledge]: [delete_ok] is the outcome of
    [s.sqs.DeleteMessage(msg)] (true for a nil error); the boolean
    result is true for a nil error. *)
Definition acknowledge (delete_ok : bool) (m : message) : list event * bool :=
  match msg_receipt m with
  | None => ([], true)
  | Some _ => ([EDelete m], delete_ok)
  end.

Section Model.

(** [json.Unmarshal] of a body into [events]: the records, or an
    error. *)
Variable unmarshal : string -> option (list record).

(** The handler passed to [Range]. *)
Variable handler : string -> bool.

(** The body of the [case msg := <-queue] branch of [drain], up to the
    loop over the records: the events it causes, and the records to
    range over ([None]: [continue] to the next message). *)
Definition drain_message (delete_ok : bool) (om : option message)
  : list event * option (list record) :=
  match om with
  | None => ([], None)
  | Some m =>
      match msg_body m with
      | None => ([], None)
      | Some body =>
          let '(ev, ok) := acknowledge delete_ok m in
          if negb ok then ((ev ++ [EError ErrDelete])%list, None)
          else
            match unmarshal body with
            | None => ((ev ++ [EUnmarshal body; EError ErrUnmarshal])%list, None)
            | Some rs => ((ev ++ [EUnmarshal body])%list, Some rs)
            end
      end
  end.

(** One action of an [ingest] goroutine.  The handler's boolean is
    discarded, as in [_ = handler(data)]. *)
Definition exec_action (a : action) (s : state) : state :=
  match a with
  | ACount tag name => emit [ECount tag name] s
  | AError => emit [EError ErrLoad] s
  | AHandle data => let _ := handler data in emit [EHandle data] s
  | ARelease => set_cur (st_cur s - 1) s
  | ADuration tag name => emit [EDuration tag name] s
  end.

(** The interleaving semantics.  The semaphore is
    [golang.org/x/sync/semaphore.Weighted]; an [Acquire(ctx, n)] may
    succeed whenever [n] units are free (the FIFO order among waiters is
    not modelled, which only adds interleavings), and fails with
    [ctx.Err()] only once [ctx] is cancelled. *)
Inductive step : state -> state -> Prop :=
  (* drain: case <-ctx.Done(): return *)
  | step_drain_done s :
      st_drain s = DSelect -> st_cancelled s = true ->
      step s (set_drain DExit s)
  (* drain: case msg := <-queue *)
  | step_drain_msg s om q delete_ok ev r :
      st_drain s = DSelect -> st_queue s = om :: q ->
      drain_message delete_ok om = (ev, r) ->
      step s (set_drain (match r with Some rs => DRecords rs | None => DSelect end)
                (emit ev (set_queue q s)))
  (* drain: end of the range over the records *)
  | step_drain_next s :
      st_drain s = DRecords [] -> step s (set_drain DSelect s)
  (* drain: url.QueryUnescape failed: report, continue *)
  | step_drain_unescape_err s r rs :
      st_drain s = DRecords (r :: rs) -> query_unescape (rec_key r) = None ->
      step s (set_drain (DRecords rs) (emit [EError ErrUnescape] s))
  (* drain: s.limit.Acquire(ctx, 1) succeeds *)
  | step_drain_acquire s r rs key :
      st_drain s = DRecords (r :: rs) -> query_unescape (rec_key r) = Some key ->
      1 <= st_size s - st_cur s ->
      step s (set_drain (DSpawn (rec_bucket r) key rs) (set_cur (st_cur s + 1) s))
  (* drain: s.limit.Acquire(ctx, 1) fails on cancellation: continue *)
  | step_drain_acquire_cancelled s r rs key :
      st_drain s = DRecords (r :: rs) -> query_unescape (rec_key r) = Some key ->
      st_cancelled s = true ->
      step s (set_drain (DRecords rs) s)
  (* drain: go s.ingest(bucket, key, handler) *)
  | step_drain_spawn s b k rs :
      st_drain s = DSpawn b k rs ->
      step s (set_drain (DRecords rs)
                (set_tasks ((st_tasks s ++ [{| t_uri := locator b k; t_pc := TLoad |}])%list) s))
  (* ingest: data, err := s.loader.Load(context.Background(), uri) *)
  | step_task_load s i t r :
      st_tasks s !! i = Some t -> t_pc t = TLoad ->
      step s (emit [ELoad (t_uri t)]
                (set_tasks (<[i := {| t_uri := t_uri t; t_pc := TRun (ingest_after_load r) |}]>
                              (st_tasks s)) s))
  (* ingest: the next statement or deferred call *)
  | step_task_act s i t a acts :
      st_tasks s !! i = Some t -> t_pc t = TRun (a :: acts) ->
      step s (exec_action a
                (set_tasks (<[i := {| t_uri := t_uri t; t_pc := TRun acts |}]>
                              (st_tasks s)) s))
  (* Close: s.cancel() *)
  | step_close_cancel s :
      st_close s = CIdle -> st_cancel_set s = true ->
      step s (set_close CSqsClose (cancel s))
  (* Close: s.cancel() on a nil function value panics *)
  | step_close_nil s :
      st_close s = CIdle -> st_cancel_set s = false ->
      step s (set_close CPanicked s)
  (* Close: s.sqs.Close() *)
  | step_close_sqs s :
      st_close s = CSqsClose ->
      step s (set_close CAcquire (emit [ESqsClose] s))
  (* Close: s.limit.Acquire(context.Background(), concurrency); return *)
  | step_close_acquire s :
      st_close s = CAcquire -> st_size s <= st_size s - st_cur s ->
      step s (set_close CReturned (set_cur (st_cur s + st_size s) s)).

Definition reachable : state -> state -> Prop := rtc step.

(** A deterministic scheduler, to replay one concrete interleaving. *)
Inductive choice :=
  | SDrain (delete_ok : bool)        (* the drain goroutine runs *)
  | SLoad (i : nat) (r : load_result) (* task [i] returns from Load *)
  | SAct (i : nat)                   (* task [i] runs its next action *)
  | SClose.                          (* the caller of Close runs *)

Definition run1 (c : choice) (s : state) : option state :=
  match c with
  | SDrain delete_ok =>
      match st_drain s with
      | DSelect =>
          if st_cancelled s then Some (set_drain DExit s)
          else match st_queue s with
               | om :: q =>
                   let '(ev, r) := drain_message delete_ok om in
                   Some (set_drain (match r with Some rs => DRecords rs | None => DSelect end)
                           (emit ev (set_queue q s)))
               | [] => None
               end
      | DRecords [] => Some (set_drain DSelect s)
      | DRecords (r :: rs) =>
          match query_unescape (rec_key r) with
          | None => Some (set_drain (DRecords rs) (emit [EError ErrUnescape] s))
          | Some key =>
              if Nat.leb 1 (st_size s - st_cur s)
              then Some (set_drain (DSpawn (rec_bucket r) key rs) (set_cur (st_cur s + 1) s))
              else if st_cancelled s then Some (set_drain (DRecords rs) s)
              else None
          end
      | DSpawn b k rs =>
          Some (set_drain (DRecords rs)
                  (set_tasks ((st_tasks s ++ [{| t_uri := locator b k; t_pc := TLoad |}])%list) s))
      | _ => None
      end
  | SLoad i r =>
      match st_tasks s !! i with
      | Some t =>
          match t_pc t with
          | TLoad =>
              Some (emit [ELoad (t_uri t)]
                      (set_tasks (<[i := {| t_uri := t_uri t; t_pc := TRun (ingest_after_load r) |}]>
                                    (st_tasks s)) s))
          | _ => None
          end
      | None => None
      end
  | SAct i =>
      match st_tasks s !! i with
      | Some t =>
          match t_pc t with
          | TRun (a :: acts) =>
              Some (exec_action a
                      (set_tasks (<[i := {| t_uri := t_uri t; t_pc := TRun acts |}]>
                                    (st_tasks s)) s))
          | _ => None
          end
      | None => None
      end
  | SClose =>
      match st_close s with
      | CIdle =>
          if st_cancel_set s then Some (set_close CSqsClose (cancel s))
          else Some (set_close CPanicked s)
      | CSqsClose => Some (set_close CAcquire (emit [ESqsClose] s))
      | CAcquire =>
          if Nat.leb (st_size s) (st_size s - st_cur s)
          then Some (set_close CReturned (set_cur (st_cur s + st_size s) s))
          else None
      | _ => None
      end
  end.

Fixpoint run (cs : list choice) (s : state) : option state :=
  match cs with
  | [] => Some s
  | c :: cs' => match run1 c s with Some s' => run cs' s' | None => None end
  end.

(** Runs of the range over one message's records: every step starts
    while [drain] is in that range, and nothing cancels [ctx]. *)
Definition in_records (d : dpc) : bool :=
  match d with DRecords _ | DSpawn _ _ _ => true | _ => false end.

Definition records_step (s s' : state) : Prop :=
  step s s' /\ in_records (st_drain s) = true /\ st_cancelled s' = false.

Definition records_run : state -> state -> Prop := rtc records_step.

Fixpoint run_records (cs : list choice) (s : state) : option state :=
  match cs with
  | [] => Some s
  | c :: cs' =>
      if in_records (st_drain s) then
        match run1 c s with
        | Some s' => if st_cancelled s' then None else run_records cs' s'
        | None => None
        end
      else None
  end.

End Model.

(* ------------------------------------------------------------------ *)
(** ** Bookkeeping of the semaphore *)

Definition is_release (a : action) : bool :=
  match a with ARelease => true | _ => false end.

(** A task still owes [s.limit.Release(1)]. *)
Definition unreleased (t : task) : bool :=
  match t_pc t with
  | TLoad => true
  | TRun acts => existsb is_release acts
  end.

(** Number of tasks that have not yet released their unit. *)
Fixpoint held (ts : list task) : nat :=
  match ts with
  | [] => 0
  | t :: ts' => (if unreleased t then 1 else 0) + held ts'
  end.

(** A task has not yet finished (its goroutine is still running). *)
Definition running (t : task) : bool :=
  match t_pc t with
  | TRun [] => false
  | _ => true
  end.

Fixpoint count_running (ts : list task) : nat :=
  match ts with
  | [] => 0
  | t :: ts' => (if running t then 1 else 0) + count_running ts'
  end.

Definition drain_units (d : dpc) : nat :=
  match d with DSpawn _ _ _ => 1 | _ => 0 end.

Definition close_units (s : state) : nat :=
  match st_close s with CReturned => st_size s | _ => 0 end.

(** Every task is at [Load], or somewhere in the code after it. *)
Definition task_wf (t : task) : Prop :=
  t_pc t = TLoad \/
  exists r n, t_pc t = TRun (drop n (ingest_after_load r)).

Definition sem_inv (s : state) : Prop :=
  Forall task_wf (st_tasks s) /\
  st_cur s = held (st_tasks s) + drain_units (st_drain s) + close_units s /\
  st_cur s <= st_size s.

(** Decoded locators of the records whose key unescapes. *)
Definition dispatched (rs : list record) : list string :=
  omap (fun r => option_map (locator (rec_bucket r)) (query_unescape (rec_key r))) rs.

Definition pending (d : dpc) : list string :=
  match d with
  | DRecords rs => dispatched rs
  | DSpawn b k rs => locator b k :: dispatched rs
  | _ => []
  end.

Definition is_unescape_error (e : event) : bool :=
  match e with EError ErrUnescape => true | _ => false end.

Definition unescape_errors (l : list event) : nat :=
  List.length (List.filter is_unescape_error l).

Definition bad_keys (rs : list record) : nat :=
  List.length (List.filter (fun r => match query_unescape (rec_key r) with None => true | Some _ => false end) rs).

Definition pending_bad (d : dpc) : nat :=
  match d with
  | DRecords rs => bad_keys rs
  | DSpawn _ _ rs => bad_keys rs
  | _ => 0
  end.

(** Events an [ingest] action causes. *)
Definition action_events (a : action) : list event :=
  match a with
  | ACount tag name => [ECount tag name]
  | AError => [EError ErrLoad]
  | AHandle data => [EHandle data]
  | ARelease => []
  | ADuration tag name => [EDuration tag name]
  end.

(** Everything one [ingest] goroutine causes, from [Load] on. *)
Definition ingest_events (uri : string) (r : load_result) : list event :=
  ELoad uri :: List.concat (List.map action_events (ingest_after_load r)).

Definition releases (acts : list action) : nat :=
  List.length (List.filter is_release acts).

Definition count_events (p : event -> bool) (l : list event) : nat :=
  List.length (List.filter p l).

Definition is_failure_count (e : event) : bool :=
  match e with
  | ECount tag name => String.eqb tag ctxTag && String.eqb name "s3readerror"
  | _ => false
  end.

Definition is_load_error (e : event) : bool :=
  match e with EError ErrLoad => true | _ => false end.

Definition is_handler_call (e : event) : bool :=
  match e with EHandle _ => true | _ => false end.

(** Nothing has started: [Range] was not called. *)
Definition not_started (s : state) : Prop :=
  st_cancel_set s = false /\ st_drain s = DNotStarted /\ st_tasks s = [] /\
  (st_close s = CIdle \/ st_close s = CPanicked).

Ltac unfold_setters :=
  unfold set_cur, set_drain, set_tasks, set_close, set_queue, cancel, emit,
    close_units in *; simpl in *.

(* ------------------------------------------------------------------ *)
(** ** Observations for further properties *)

(** The key with every '+' replaced by a space. *)
Fixpoint plus_to_space (s : string) : string :=
  match s with
  | EmptyString => EmptyString
  | String c rest =>
      String (if Ascii.eqb c "+"%char then " "%char else c) (plus_to_space rest)
  end.

(** Number of occurrences of the byte [c] in [s]. *)
Fixpoint count_char (c : ascii) (s : string) : nat :=
  match s with
  | EmptyString => 0
  | String c' rest => (if Ascii.eqb c' c then 1 else 0) + count_char c rest
  end.

(** [s] starts with two hex digits. *)
Definition escape_ok (s : string) : bool :=
  match s with
  | String h1 (String h2 _) => ishex h1 && ishex h2
  | _ => false
  end.

(** The messages passed to [s.sqs.DeleteMessage], in order. *)
Definition deletes (l : list event) : list message :=
  omap (fun e => match e with EDelete m => Some m | _ => None end) l.

(** A received value that [drain] hands to [acknowledge] with a receipt
    handle: a non-nil message with a body and a receipt handle. *)
Definition deletable (om : option message) : option message :=
  match om with
  | Some m =>
      match msg_body m, msg_receipt m with
      | Some _, Some _ => Some m
      | _, _ => None
      end
  | None => None
  end.

(** [uri] is the locator of a record, with a key that unescapes, of a
    message among [consumed] whose body unmarshals. *)
Definition named_by (u : string -> option (list record))
    (consumed : list (option message)) (uri : string) : Prop :=
  exists m body rs, In (Some m) consumed /\ msg_body m = Some body /\
    u body = Some rs /\ In uri (dispatched rs).

(** The locators of the launched tasks and of the records still to be
    launched by the current range. *)
Definition uris_pending (s : state) : list string :=
  (List.map t_uri (st_tasks s) ++ pending (st_drain s))%list.

(** The events that are [s.sqs.Close()] calls. *)
Definition is_sqs_close (e : event) : bool :=
  match e with ESqsClose => true | _ => false end.

(** [s.sqs.Close()] has run in [Close]. *)
Definition close_past_sqs (c : cpc) : nat :=
  match c with CAcquire | CReturned => 1 | _ => 0 end.

(** The events that are [s.loader.Load] calls. *)
Definition is_load (e : event) : bool :=
  match e with ELoad _ => true | _ => false end.

(** The task has returned from [Load]. *)
Definition started (t : task) : bool :=
  match t_pc t with TLoad => false | TRun _ => true end.

(* ------------------------------------------------------------------ *)
(** ** Concrete inputs *)

Definition dq : string := String (ascii_of_nat 34) EmptyString.
Definition quoted (x : string) : string := (dq ++ x ++ dq)%string.

(** The S3 event notification body with the given records, in the shape
    of [events]. *)
Definition json_record (r : record) : string :=
  ("{" ++ quoted "s3" ++ ":{" ++ quoted "bucket" ++ ":{" ++ quoted "name" ++ ":"
   ++ quoted (rec_bucket r) ++ "}," ++ quoted "object" ++ ":{" ++ quoted "key" ++ ":"
   ++ quoted (rec_key r) ++ "}}}")%string.

Fixpoint json_records (rs : list record) : string :=
  match rs with
  | [] => ""
  | [r] => json_record r
  | r :: rs' => (json_record r ++ "," ++ json_records rs')%string
  end.

Definition json_body (rs : list record) : string :=
  ("{" ++ quoted "Records" ++ ":[" ++ json_records rs ++ "]}")%string.

(** [json.Unmarshal] on the bodies [json_body rs] for the envelopes
    [envs] (it yields [rs]), and on other text that is not JSON
    (an error). *)
Definition json_decoder (envs : list (list record)) (body : string)
  : option (list record) :=
  find (fun rs => String.eqb (json_body rs) body) envs.

Definition rec_of (b k : string) : record := {| rec_bucket := b; rec_key := k |}.

Definition message_of (body : string) (receipt : option string) : message :=
  {| msg_body := Some body; msg_receipt := receipt |}.

(** A handler that asks to stop, as [Range]'s comment describes. *)
Definition stop_handler (_ : string) : bool := true.

(** One record, one message, no receipt handle. *)
Definition one_rec : list record := [rec_of "b" "a%2Fb.json"].
Definition one_queue : list (option message) := [Some (message_of (json_body one_rec) None)].

(** Dispatch, fetch, handle and release one task, then run [Close]. *)
Definition close_choices : list choice :=
  [SDrain true; SDrain true; SDrain true; SLoad 0 (LoadOk "payload");
   SAct 0; SAct 0; SClose; SClose; SClose].

Definition close_state : state :=
  match run (json_decoder [one_rec]) stop_handler close_choices
          (range one_queue (new_with 1)) with
  | Some s => s
  | None => new_with 1
  end.

(** Four records in one message. *)
Definition four_recs : list record :=
  [rec_of "b" "k1"; rec_of "b" "k2"; rec_of "b" "k3"; rec_of "b" "k4"].
Definition four_queue : list (option message) :=
  [Some (message_of (json_body four_recs) (Some "rh"))].

(** Three tasks fetch, handle and release; then a fourth is launched. *)
Definition four_choices : list choice :=
  [SDrain true;
   SDrain true; SDrain true; SLoad 0 (LoadOk "p1"); SAct 0; SAct 0;
   SDrain true; SDrain true; SLoad 1 (LoadOk "p2"); SAct 1; SAct 1;
   SDrain true; SDrain true; SLoad 2 (LoadOk "p3"); SAct 2; SAct 2;
   SDrain true; SDrain true].

Definition four_state : state :=
  match run (json_decoder [four_recs]) stop_handler four_choices
          (range four_queue (new_with 1)) with
  | Some s => s
  | None => new_with 1
  end.

(** The state after replaying [cs] (unchanged if a choice is not
    enabled). *)
Definition replay (u : string -> option (list record)) (cs : list choice) (s : state) : state :=
  match run u stop_handler cs s with Some s' => s' | None => s end.

(** A body that is not JSON, with a receipt handle. *)
Definition garbage_msg : message := message_of "not json" (Some "rh").
Definition garbage_s0 : state := range [Some garbage_msg] (new_with 1).
Definition garbage_s1 : state := replay (json_decoder []) [SDrain true] garbage_s0.

(** A valid body with a receipt handle, whose deletion fails. *)
Definition valid_msg : message := message_of (json_body one_rec) (Some "rh").
Definition valid_s0 : state := range [Some valid_msg] (new_with 1).
Definition undeleted_s1 : state := replay (json_decoder [one_rec]) [SDrain false] valid_s0.

(** One record whose key is not a valid escape. *)
Definition bad_recs : list record := [rec_of "b" "%"].
Definition bad_msg : message := message_of (json_body bad_recs) None.
Definition bad_s0 : state := range [Some bad_msg] (new_with 1).
Definition bad_s1 : state := replay (json_decoder [bad_recs]) [SDrain true] bad_s0.
Definition bad_s2 : state := replay (json_decoder [bad_recs]) [SDrain true; SDrain true] bad_s1.

(** A good key, a bad key, and a key with a '+'. *)
Definition mixed_recs : list record :=
  [rec_of "b" "a%2Fb.json"; rec_of "b" "x%zz"; rec_of "b" "c+d.json"].
Definition mixed_msg : message := message_of (json_body mixed_recs) (Some "rh").
Definition mixed_s0 : state := range [Some mixed_msg] (new_with 1).
Definition mixed_s1 : state := replay (json_decoder [mixed_recs]) [SDrain true] mixed_s0.
Definition mixed_s2 : state :=
  replay (json_decoder [mixed_recs])
    [SDrain true; SDrain true; SDrain true; SDrain true; SDrain true; SDrain true] mixed_s1.

(** One task has loaded its object and run the handler: its next step
    is the deferred [s.limit.Release(1)]. *)
Definition release_state : state :=
  replay (json_decoder [one_rec])
    [SDrain true; SDrain true; SDrain true; SLoad 0 (LoadOk "payload"); SAct 0]
    (range one_queue (new_with 1)).

(** One task has returned from [Load] with the payload, before the
    handler runs. *)
Definition load_state : state :=
  replay (json_decoder [one_rec])
    [SDrain true; SDrain true; SDrain true; SLoad 0 (LoadOk "payload")]
    (range one_queue (new_with 1)).

(** A bad key followed by four good ones, with one CPU (three units).
    Three tasks are launched and still loading when [Close] cancels
    [ctx]; the drain loop's [Acquire] for the fourth good key finds no
    free unit and fails with [ctx.Err()]. *)
Definition five_recs : list record :=
  [rec_of "b" "%"; rec_of "b" "k1"; rec_of "b" "k2"; rec_of "b" "k3"; rec_of "b" "k4"].
Definition five_msg : message := message_of (json_body five_recs) None.
Definition cancel_s0 : state := range [Some five_msg] (new_with 1).
Definition cancel_s1 : state := replay (json_decoder [five_recs]) [SDrain true] cancel_s0.
Definition cancel_choices : list choice :=
  [SDrain true; SDrain true; SDrain true; SDrain true; SDrain true; SDrain true; SDrain true;
   SClose; SClose; SDrain true; SDrain true].
Definition cancel_s2 : state := replay (json_decoder [five_recs]) cancel_choices cancel_s1.

(** [Close] on an empty queue: the drain loop returns, then [Close]
    returns. *)
Definition exit_s0 : state := range [] (new_with 1).
Definition exit_s1 : state := replay (json_decoder []) [SClose; SDrain true] exit_s0.
Definition exit_s2 : state := replay (json_decoder []) [SClose; SClose] exit_s1.

(** [Close] has returned, then the task runs its deferred
    [s.monitor.Duration]. *)
Definition after_close_state : state := replay (json_decoder [one_rec]) [SAct 0] close_state.


(* ------------------------------------------------------------------ *)
(** ** Examples *)

Example query_unescape_slash : query_unescape "a%2Fb.json" = Some "a/b.json".
Proof. reflexivity. Qed.

Example query_unescape_plus : query_unescape "a+b" = Some "a b".
Proof. reflexivity. Qed.

Example query_unescape_bad : query_unescape "a%zz" = None.
Proof. reflexivity. Qed.

Example query_unescape_short : query_unescape "a%4" = None.
Proof. reflexivity. Qed.

(* ------------------------------------------------------------------ *)
(** ** The scheduler replays steps *)

Section Lemmas.

Variable unmarshal : string -> option (list record).
Variable handler : string -> bool.

Abbreviation step := (step unmarshal handler).
Abbreviation reachable := (reachable unmarshal handler).
Abbreviation records_run := (records_run unmarshal handler).
Abbreviation run := (run unmarshal handler).
Abbreviation run_records := (run_records unmarshal handler).

Lemma run1_step c s s' : run1 unmarshal handler c s = Some s' -> step s s'.
Proof.
  destruct c as [del|i r|i|]; unfold run1; cbv beta iota.
  - destruct (st_drain s) as [| |[|r rs]|b k rs|] eqn:Hd; try discriminate.
    + destruct (st_cancelled s) eqn:Hc.
      * intros [= <-]. by apply step_drain_done.
      * destruct (st_queue s) as [|om q] eqn:Hq; [discriminate|].
        destruct (drain_message unmarshal del om) as [ev r] eqn:Hm.
        intros [= <-]. by eapply step_drain_msg.
    + intros [= <-]. by apply step_drain_next.
    + destruct (query_unescape (rec_key r)) as [key|] eqn:Hk.
      * destruct (Nat.leb 1 (st_size s - st_cur s)) eqn:Hl.
        -- intros [= <-]. apply Nat.leb_le in Hl. by eapply step_drain_acquire.
        -- destruct (st_cancelled s) eqn:Hc; [|discriminate].
           intros [= <-]. by eapply step_drain_acquire_cancelled.
      * intros [= <-]. by eapply step_drain_unescape_err.
    + intros [= <-]. by apply step_drain_spawn.
  - destruct (st_tasks s !! i) as [t|] eqn:Ht; [|discriminate].
    destruct (t_pc t) eqn:Hp; [|discriminate].
    intros [= <-]. by eapply step_task_load.
  - destruct (st_tasks s !! i) as [t|] eqn:Ht; [|discriminate].
    destruct (t_pc t) as [|[|a acts]] eqn:Hp; try discriminate.
    intros [= <-]. by eapply step_task_act.
  - destruct (st_close s) eqn:Hc; try discriminate.
    + destruct (st_cancel_set s) eqn:Hs; intros [= <-].
      * by apply step_close_cancel.
      * by apply step_close_nil.
    + intros [= <-]. by apply step_close_sqs.
    + destruct (Nat.leb (st_size s) (st_size s - st_cur s)) eqn:Hl; [|discriminate].
      intros [= <-]. apply Nat.leb_le in Hl. by apply step_close_acquire.
Qed.

Lemma run_reachable cs s s' : run cs s = Some s' -> reachable s s'.
Proof.
  revert s. induction cs as [|c cs IH]; intros s; simpl.
  - intros [= <-]. apply rtc_refl.
  - destruct (run1 unmarshal handler c s) as [s1|] eqn:H1; [|discriminate].
    intros Hr. eapply rtc_l; [by eapply run1_step|]. by apply IH.
Qed.

Lemma run_records_run cs s s' : run_records cs s = Some s' -> records_run s s'.
Proof.
  revert s. induction cs as [|c cs IH]; intros s; simpl.
  - intros [= <-]. apply rtc_refl.
  - destruct (in_records (st_drain s)) eqn:Hin; [|discriminate].
    destruct (run1 unmarshal handler c s) as [s1|] eqn:H1; [|discriminate].
    destruct (st_cancelled s1) eqn:Hc; [discriminate|].
    intros Hr. eapply rtc_l; [|by apply IH].
    split; [by eapply run1_step|]. by split.
Qed.

End Lemmas.

(* ------------------------------------------------------------------ *)
(** ** The semaphore invariant *)

Lemma drop_cons_S {A} (l : list A) n a rest :
  drop n l = a :: rest -> drop (S n) l = rest.
Proof.
  revert n. induction l as [|x l IH]; intros n; simpl.
  - rewrite drop_nil. discriminate.
  - destruct n as [|n]; simpl.
    + intros [= _ <-]. by rewrite drop_0.
    + apply IH.
Qed.

Lemma release_once r n acts :
  drop n (ingest_after_load r) = ARelease :: acts -> existsb is_release acts = false.
Proof.
  destruct r; destruct n as [|[|[|[|[|n]]]]]; simpl;
    try (intros [= <-]; reflexivity); try discriminate;
    rewrite drop_nil; discriminate.
Qed.

Lemma held_app ts ts' : held (ts ++ ts') = held ts + held ts'.
Proof. induction ts as [|t ts IH]; simpl; lia. Qed.

Lemma held_insert ts i t t' :
  ts !! i = Some t ->
  held (<[i := t']> ts) + (if unreleased t then 1 else 0)
  = held ts + (if unreleased t' then 1 else 0).
Proof.
  revert i. induction ts as [|x ts IH]; intros i; [discriminate|].
  destruct i as [|i]; simpl.
  - intros [= ->]. lia.
  - intros Hi. specialize (IH i Hi). lia.
Qed.

Lemma held_pos ts i t :
  ts !! i = Some t -> unreleased t = true -> 1 <= held ts.
Proof.
  revert i. induction ts as [|x ts IH]; intros i; [discriminate|].
  destruct i as [|i]; simpl.
  - intros [= ->] ->. lia.
  - intros Hi Hu. specialize (IH i Hi Hu). lia.
Qed.

Lemma exec_action_tasks h a s : st_tasks (exec_action h a s) = st_tasks s.
Proof. destruct a; reflexivity. Qed.
Lemma exec_action_drain h a s : st_drain (exec_action h a s) = st_drain s.
Proof. destruct a; reflexivity. Qed.
Lemma exec_action_close h a s : st_close (exec_action h a s) = st_close s.
Proof. destruct a; reflexivity. Qed.
Lemma exec_action_size h a s : st_size (exec_action h a s) = st_size s.
Proof. destruct a; reflexivity. Qed.
Lemma exec_action_cancelled h a s : st_cancelled (exec_action h a s) = st_cancelled s.
Proof. destruct a; reflexivity. Qed.
Lemma exec_action_cur h a s :
  st_cur (exec_action h a s) = if is_release a then st_cur s - 1 else st_cur s.
Proof. destruct a; reflexivity. Qed.

Lemma sem_inv_step u h s s' : step u h s s' -> sem_inv s -> sem_inv s'.
Proof.
  unfold sem_inv. intros Hs (Hwf & Hcur & Hle).
  destruct Hs as [s Hd Hc|s om q del ev r Hd Hq Hm|s Hd|s r rs Hd Hk
                 |s r rs key Hd Hk Hl|s r rs key Hd Hk Hc|s b k rs Hd
                 |s i t r Hi Hp|s i t a acts Hi Hp|s Hc Hs|s Hc Hs|s Hc|s Hc Hl].
  - unfold_setters. rewrite Hd in Hcur. auto.
  - unfold_setters. rewrite Hd in Hcur. destruct r; auto.
  - unfold_setters. rewrite Hd in Hcur. auto.
  - unfold_setters. rewrite Hd in Hcur. auto.
  - unfold_setters. rewrite Hd in Hcur. simpl in Hcur. split; [done|lia].
  - unfold_setters. rewrite Hd in Hcur. auto.
  - unfold_setters. rewrite Hd in Hcur. simpl in Hcur.
    rewrite held_app. simpl. split; [|lia].
    apply Forall_app. split; [done|]. constructor; [by left|constructor].
  - unfold_setters.
    pose proof (held_insert _ _ _ {| t_uri := t_uri t; t_pc := TRun (ingest_after_load r) |} Hi) as Hh.
    assert (Ht : unreleased t = true) by (unfold unreleased; by rewrite Hp).
    assert (Ht' : unreleased {| t_uri := t_uri t; t_pc := TRun (ingest_after_load r) |} = true)
      by (destruct r; reflexivity).
    rewrite Ht, Ht' in Hh. split; [|lia].
    apply Forall_insert; [done|]. right. exists r, 0. reflexivity.
  - rewrite exec_action_tasks, exec_action_drain, exec_action_size, exec_action_cur.
    unfold close_units. rewrite exec_action_close, exec_action_size.
    unfold_setters.
    destruct (proj1 (Forall_lookup _ _) Hwf i t Hi) as [Hl|(r & n & Hn)];
      [congruence|].
    rewrite Hp in Hn. injection Hn as Hn. symmetry in Hn.
    pose proof (held_insert _ _ _ {| t_uri := t_uri t; t_pc := TRun acts |} Hi) as Hh.
    assert (Ht : unreleased t = existsb is_release (a :: acts))
      by (unfold unreleased; by rewrite Hp).
    change (unreleased {| t_uri := t_uri t; t_pc := TRun acts |})
      with (existsb is_release acts) in Hh.
    rewrite Ht in Hh. simpl in Hh.
    split.
    { apply Forall_insert; [done|]. right. exists r, (S n). simpl.
      by rewrite (drop_cons_S _ _ _ _ Hn). }
    destruct a; simpl in *; try (split; lia).
    rewrite (release_once _ _ _ Hn) in Hh.
    pose proof (held_pos _ _ _ Hi ltac:(by rewrite Ht)) as Hp1.
    split; lia.
  - unfold_setters. rewrite Hc in Hcur. auto.
  - unfold_setters. rewrite Hc in Hcur. auto.
  - unfold_setters. rewrite Hc in Hcur. auto.
  - unfold_setters. rewrite Hc in Hcur. split; [done|lia].
Qed.

Lemma sem_inv_reachable u h s s' : reachable u h s s' -> sem_inv s -> sem_inv s'.
Proof.
  induction 1 as [s|s1 s2 s3 H12 _ IH]; [done|].
  intros Hi. apply IH. by eapply sem_inv_step.
Qed.

Lemma sem_inv_range numcpu q : sem_inv (range q (new_with numcpu)).
Proof. unfold sem_inv, close_units. simpl. split; [constructor|lia]. Qed.

Lemma held_zero ts : held ts = 0 -> Forall (fun t => unreleased t = false) ts.
Proof.
  induction ts as [|t ts IH]; simpl; [constructor|].
  destruct (unreleased t) eqn:Hu; [lia|]. intros H. constructor; auto.
Qed.

Lemma released_task_at_duration t :
  task_wf t -> unreleased t = false ->
  t_pc t = TRun [ADuration ctxTag "s3sqs"] \/ t_pc t = TRun [].
Proof.
  unfold unreleased. intros [Hp|(r & n & Hp)]; rewrite Hp; [discriminate|].
  destruct r; destruct n as [|[|[|[|[|n]]]]]; simpl; try discriminate; auto;
    rewrite drop_nil; auto.
Qed.

Lemma size_step u h s s' : step u h s s' -> st_size s' = st_size s.
Proof. destruct 1; try reflexivity. rewrite exec_action_size. reflexivity. Qed.

Lemma size_reachable u h s s' : reachable u h s s' -> st_size s' = st_size s.
Proof. induction 1 as [|s1 s2 s3 H12 _ IH]; [done|]. rewrite IH. by eapply size_step. Qed.

(** ** C1: [Close] is a barrier on the semaphore *)

(** C1 (counterexample).  [Close] can return while an [ingest]
    goroutine is still running: its deferred [s.monitor.Duration] runs
    after its deferred [s.limit.Release(1)]. *)
Lemma close_returns_with_task_running :
  ~ (forall s, reachable (json_decoder [one_rec]) stop_handler (range one_queue (new_with 1)) s ->
       st_close s = CReturned -> count_running (st_tasks s) = 0).
Proof.
  intros H.
  assert (Hr : reachable (json_decoder [one_rec]) stop_handler
                 (range one_queue (new_with 1)) close_state).
  { apply (run_reachable _ _ close_choices). vm_compute. reflexivity. }
  specialize (H close_state Hr ltac:(vm_compute; reflexivity)).
  vm_compute in H. discriminate.
Qed.

(** ** C2: the semaphore bounds the tasks that hold a unit *)

(** C2 (amended).  After [Range], in every reachable state the ceiling
    is [concurrency = NumCPU * 3]; the [ingest] goroutines that have not
    yet released their unit, plus a unit the drain loop holds between
    [Acquire] and [go s.ingest], never exceed it; and both outcomes of
    [Load] lead to [s.limit.Release(1)]. *)
Theorem unreleased_tasks_bounded u h numcpu q s :
  reachable u h (range q (new_with numcpu)) s ->
  st_size s = concurrency numcpu /\ concurrency numcpu = 3 * numcpu /\
  held (st_tasks s) + drain_units (st_drain s) <= st_size s /\
  (forall r, existsb is_release (ingest_after_load r) = true).
Proof.
  intros Hr.
  destruct (sem_inv_reachable _ _ _ _ Hr (sem_inv_range numcpu q)) as (_ & Hcur & Hle).
  rewrite (size_reachable _ _ _ _ Hr) in *. simpl in *.
  split; [done|]. split; [unfold concurrency; lia|]. split; [lia|].
  intros []; reflexivity.
Qed.

Lemma unreleased_tasks_bounded_witness :
  reachable (json_decoder [four_recs]) stop_handler (range four_queue (new_with 1)) four_state /\
  (st_size four_state = concurrency 1 /\ concurrency 1 = 3 * 1 /\
   held (st_tasks four_state) + drain_units (st_drain four_state) <= st_size four_state /\
   (forall r, existsb is_release (ingest_after_load r) = true)).
Proof.
  assert (Hr : reachable (json_decoder [four_recs]) stop_handler
                 (range four_queue (new_with 1)) four_state).
  { apply (run_reachable _ _ four_choices). vm_compute. reflexivity. }
  split; [exact Hr|].
  exact (unreleased_tasks_bounded _ _ 1 four_queue four_state Hr).
Defined.

(** C2 (counterexample).  With one CPU (ceiling 3), four [ingest]
    goroutines are running at once: three have released their unit and
    wait to run their deferred [s.monitor.Duration], and the fourth was
    admitted with a released unit. *)
Lemma running_tasks_exceed_ceiling :
  ~ (forall s, reachable (json_decoder [four_recs]) stop_handler (range four_queue (new_with 1)) s ->
       count_running (st_tasks s) <= concurrency 1).
Proof.
  intros H.
  assert (Hr : reachable (json_decoder [four_recs]) stop_handler
                 (range four_queue (new_with 1)) four_state).
  { apply (run_reachable _ _ four_choices). vm_compute. reflexivity. }
  specialize (H four_state Hr). vm_compute in H. lia.
Qed.

(** ** C4: the handler's result is discarded *)

Lemma exec_action_handler h1 h2 a s : exec_action h1 a s = exec_action h2 a s.
Proof. destruct a; reflexivity. Qed.

Lemma step_handler_swap u h1 h2 s s' : step u h1 s s' -> step u h2 s s'.
Proof.
  destruct 1; try (econstructor; eauto; fail).
  rewrite (exec_action_handler h1 h2). by eapply step_task_act.
Qed.

(** ** C5: [Close] before [Range] *)

Lemma not_started_step u h s s' : step u h s s' -> not_started s -> not_started s'.
Proof.
  unfold not_started.
  destruct 1 as [s Hd Hc|s om q del ev r Hd Hq Hm|s Hd|s r rs Hd Hk
                 |s r rs key Hd Hk Hl|s r rs key Hd Hk Hc|s b k rs Hd
                 |s i t r Hi Hp|s i t a acts Hi Hp|s Hc Hs|s Hc Hs|s Hc|s Hc Hl];
    intros (Hs0 & Hd0 & Ht0 & Hc0); try congruence.
  - rewrite Ht0 in Hi. by rewrite lookup_nil in Hi.
  - rewrite Ht0 in Hi. by rewrite lookup_nil in Hi.
  - unfold_setters. auto.
  - destruct Hc0; congruence.
  - destruct Hc0; congruence.
Qed.

Lemma not_started_rtc u h s s' : reachable u h s s' -> not_started s -> not_started s'.
Proof.
  induction 1 as [|x y z Hxy _ IH]; intros; [done|].
  apply IH. by eapply not_started_step.
Qed.

Lemma not_started_reachable u h numcpu s :
  reachable u h (new_with numcpu) s -> not_started s.
Proof.
  intros Hr. apply (not_started_rtc _ _ _ _ Hr).
  unfold not_started. simpl. auto.
Qed.

(** C5 (amended).  On an ingress where [Range] was never called,
    [s.cancel] is nil: calling [Close] panics at [s.cancel()], and no
    execution reaches the return of [Close]. *)
Theorem close_before_range_panics u h numcpu :
  step u h (new_with numcpu) (set_close CPanicked (new_with numcpu)) /\
  (forall s, reachable u h (new_with numcpu) s ->
     st_close s = CIdle \/ st_close s = CPanicked).
Proof.
  split.
  - by apply step_close_nil.
  - intros s Hr. apply (not_started_reachable _ _ _ _ Hr).
Qed.

(** C5 (counterexample).  [Close] before [Range] never returns. *)
Lemma close_before_range_never_returns :
  ~ exists s, reachable (json_decoder []) stop_handler (new_with 1) s /\
              st_close s = CReturned.
Proof.
  intros (s & Hr & Hc).
  destruct (not_started_reachable _ _ _ _ Hr) as (_ & _ & _ & [H|H]); congruence.
Qed.

(** ** Receiving one message *)

Lemma cons_neq {A} (x : A) l : x :: l <> l.
Proof. intros H. apply (f_equal (@List.length A)) in H. simpl in H. lia. Qed.

Lemma exec_action_queue h a s : st_queue (exec_action h a s) = st_queue s.
Proof. destruct a; reflexivity. Qed.

(** The only step that consumes the head of the queue is the
    [case msg := <-queue] branch of [drain]. *)
Lemma queue_step u h s s' om q :
  st_drain s = DSelect -> st_queue s = om :: q -> step u h s s' -> st_queue s' = q ->
  exists delete_ok ev r,
    drain_message u delete_ok om = (ev, r) /\
    s' = set_drain (match r with Some rs => DRecords rs | None => DSelect end)
           (emit ev (set_queue q s)).
Proof.
  intros Hd Hq Hs Hq'.
  destruct Hs as [s Hd1 Hc|s om1 q1 del ev r Hd1 Hq1 Hm|s Hd1|s r rs Hd1 Hk
                 |s r rs key Hd1 Hk Hl|s r rs key Hd1 Hk Hc|s b k rs Hd1
                 |s i t r Hi Hp|s i t a acts Hi Hp|s Hc Hs|s Hc Hs|s Hc|s Hc Hl];
    try (rewrite exec_action_queue in Hq');
    unfold set_cur, set_drain, set_tasks, set_close, set_queue, cancel, emit in Hq';
    simpl in Hq'; try (rewrite Hq in Hq'; by apply cons_neq in Hq').
  rewrite Hq in Hq1. injection Hq1 as -> ->. eauto.
Qed.

(** C6.  When [drain] receives a message whose body [json.Unmarshal]
    rejects: [acknowledge] runs once, first, and calls
    [DeleteMessage] exactly once when the message has a receipt handle
    (none when it has not: the acknowledgement is then trivial); one
    error is reported; no unit is taken, no task is launched, and the
    loop is back at its [select] for the next message. *)
Theorem unparsable_body_acknowledged_once u h s s' m body q :
  st_drain s = DSelect -> st_queue s = Some m :: q -> msg_body m = Some body ->
  u body = None -> step u h s s' -> st_queue s' = q ->
  st_drain s' = DSelect /\ st_tasks s' = st_tasks s /\ st_cur s' = st_cur s /\
  exists ev, st_log s' = (st_log s ++ ev)%list /\
    match msg_receipt m with
    | None => ev = [EUnmarshal body; EError ErrUnmarshal]
    | Some _ => ev = [EDelete m; EUnmarshal body; EError ErrUnmarshal] \/
                ev = [EDelete m; EError ErrDelete]
    end.
Proof.
  intros Hd Hq Hb Hu Hs Hq'.
  destruct (queue_step _ _ _ _ _ _ Hd Hq Hs Hq') as (del & ev & r & Hm & ->).
  unfold drain_message, acknowledge in Hm. rewrite Hb in Hm.
  destruct (msg_receipt m) as [rh|]; [destruct del|]; simpl in Hm;
    rewrite ?Hu in Hm; injection Hm as <- <-;
    (split; [reflexivity|]); (split; [reflexivity|]); (split; [reflexivity|]);
    eexists; (split; [reflexivity|]); auto.
Qed.

Lemma unparsable_body_acknowledged_once_witness :
  st_drain garbage_s0 = DSelect /\ st_queue garbage_s0 = Some garbage_msg :: [] /\
  msg_body garbage_msg = Some "not json" /\ json_decoder [] "not json" = None /\
  step (json_decoder []) stop_handler garbage_s0 garbage_s1 /\ st_queue garbage_s1 = [] /\
  (st_drain garbage_s1 = DSelect /\ st_tasks garbage_s1 = st_tasks garbage_s0 /\
   st_cur garbage_s1 = st_cur garbage_s0 /\
   exists ev, st_log garbage_s1 = (st_log garbage_s0 ++ ev)%list /\
     match msg_receipt garbage_msg with
     | None => ev = [EUnmarshal "not json"; EError ErrUnmarshal]
     | Some _ => ev = [EDelete garbage_msg; EUnmarshal "not json"; EError ErrUnmarshal] \/
                 ev = [EDelete garbage_msg; EError ErrDelete]
     end).
Proof.
  assert (Hs : step (json_decoder []) stop_handler garbage_s0 garbage_s1).
  { apply (run1_step _ _ (SDrain true)). vm_compute. reflexivity. }
  do 6 (split; [first [exact Hs | vm_compute; reflexivity]|]).
  exact (unparsable_body_acknowledged_once (json_decoder []) stop_handler garbage_s0 garbage_s1
           garbage_msg "not json" [] eq_refl eq_refl eq_refl eq_refl Hs
           ltac:(vm_compute; reflexivity)).
Defined.

(** C9.  [acknowledge] comes first.  With a receipt handle, the first
    event is [DeleteMessage]; if it fails ([delete_ok = false]) the
    error is reported, the body is never unmarshalled, no task is
    launched and the loop is back at its [select]; if it succeeds, the
    body is unmarshalled next.  Without a receipt handle nothing is
    deleted and the body is unmarshalled at once. *)
Theorem acknowledge_before_parse u h s s' m body q :
  st_drain s = DSelect -> st_queue s = Some m :: q -> msg_body m = Some body ->
  step u h s s' -> st_queue s' = q ->
  exists (delete_ok : bool) (ev : list event), st_log s' = (st_log s ++ ev)%list /\
    match msg_receipt m with
    | Some _ =>
        if delete_ok then exists rest : list event, ev = EDelete m :: EUnmarshal body :: rest
        else ev = [EDelete m; EError ErrDelete] /\ st_drain s' = DSelect /\
             st_tasks s' = st_tasks s /\ st_cur s' = st_cur s
    | None => exists rest : list event, ev = EUnmarshal body :: rest
    end.
Proof.
  intros Hd Hq Hb Hs Hq'.
  destruct (queue_step _ _ _ _ _ _ Hd Hq Hs Hq') as (del & ev & r & Hm & ->).
  exists del, ev. split; [reflexivity|].
  unfold drain_message, acknowledge in Hm. rewrite Hb in Hm.
  destruct (msg_receipt m) as [rh|]; [destruct del|]; simpl in Hm.
  - destruct (u body); injection Hm as <- <-; eauto.
  - injection Hm as <- <-. auto.
  - destruct (u body); injection Hm as <- <-; eauto.
Qed.

Lemma acknowledge_before_parse_witness :
  st_drain valid_s0 = DSelect /\ st_queue valid_s0 = Some valid_msg :: [] /\
  msg_body valid_msg = Some (json_body one_rec) /\
  step (json_decoder [one_rec]) stop_handler valid_s0 undeleted_s1 /\ st_queue undeleted_s1 = [] /\
  exists (delete_ok : bool) (ev : list event), st_log undeleted_s1 = (st_log valid_s0 ++ ev)%list /\
    match msg_receipt valid_msg with
    | Some _ =>
        if delete_ok then exists rest : list event, ev = EDelete valid_msg :: EUnmarshal (json_body one_rec) :: rest
        else ev = [EDelete valid_msg; EError ErrDelete] /\ st_drain undeleted_s1 = DSelect /\
             st_tasks undeleted_s1 = st_tasks valid_s0 /\ st_cur undeleted_s1 = st_cur valid_s0
    | None => exists rest : list event, ev = EUnmarshal (json_body one_rec) :: rest
    end.
Proof.
  assert (Hs : step (json_decoder [one_rec]) stop_handler valid_s0 undeleted_s1).
  { apply (run1_step _ _ (SDrain false)). vm_compute. reflexivity. }
  do 5 (split; [first [exact Hs | vm_compute; reflexivity]|]).
  exact (acknowledge_before_parse (json_decoder [one_rec]) stop_handler valid_s0 undeleted_s1
           valid_msg (json_body one_rec) [] eq_refl eq_refl eq_refl Hs
           ltac:(vm_compute; reflexivity)).
Defined.

(** ** The range over one message's records *)

Lemma unescape_errors_app l l' :
  unescape_errors (l ++ l') = unescape_errors l + unescape_errors l'.
Proof.
  unfold unescape_errors. induction l as [|e l IH]; simpl; [done|].
  destruct (is_unescape_error e); simpl; lia.
Qed.

Lemma exec_action_errors h a s :
  unescape_errors (st_log (exec_action h a s)) = unescape_errors (st_log s).
Proof.
  destruct a; unfold exec_action, emit, set_cur; cbn [st_log];
    rewrite ?unescape_errors_app; try reflexivity;
    unfold unescape_errors at 2; simpl; lia.
Qed.

Lemma uris_insert (ts : list task) i t t' :
  ts !! i = Some t -> t_uri t' = t_uri t ->
  List.map t_uri (<[i := t']> ts) = List.map t_uri ts.
Proof.
  revert i. induction ts as [|x ts IH]; intros i; [discriminate|].
  destruct i as [|i]; simpl.
  - intros [= ->] ->. reflexivity.
  - intros Hi Ht. by rewrite (IH i Hi Ht).
Qed.

Lemma records_step_pending u h s s' :
  records_step u h s s' ->
  (List.map t_uri (st_tasks s) ++ pending (st_drain s)
   = List.map t_uri (st_tasks s') ++ pending (st_drain s'))%list /\
  unescape_errors (st_log s) + pending_bad (st_drain s)
  = unescape_errors (st_log s') + pending_bad (st_drain s').
Proof.
  intros (Hs & Hin & Hc').
  destruct Hs as [s Hd Hc|s om q del ev r Hd Hq Hm|s Hd|s r rs Hd Hk
                 |s r rs key Hd Hk Hl|s r rs key Hd Hk Hc|s b k rs Hd
                 |s i t r Hi Hp|s i t a acts Hi Hp|s Hc Hs|s Hc Hs|s Hc|s Hc Hl];
    unfold pending_bad, pending, bad_keys, dispatched.
  - by rewrite Hd in Hin.
  - by rewrite Hd in Hin.
  - unfold_setters. rewrite Hd. simpl. rewrite app_nil_r. split; [done|unfold unescape_errors; simpl; lia].
  - unfold_setters. rewrite Hd, unescape_errors_app. simpl.
    rewrite Hk. simpl. split; [done|unfold unescape_errors; simpl; lia].
  - unfold_setters. rewrite Hd. simpl.
    rewrite Hk. simpl. split; [done|unfold unescape_errors; simpl; lia].
  - unfold_setters. congruence.
  - unfold_setters. rewrite Hd. simpl.
    rewrite map_app, <- app_assoc. simpl. split; [done|unfold unescape_errors; simpl; lia].
  - unfold_setters. rewrite unescape_errors_app.
    erewrite uris_insert; [|exact Hi|reflexivity]. simpl. split; [done|unfold unescape_errors; simpl; lia].
  - rewrite exec_action_tasks, exec_action_drain, exec_action_errors.
    unfold_setters. erewrite uris_insert; [|exact Hi|reflexivity]. split; [done|unfold unescape_errors; simpl; lia].
  - unfold_setters. discriminate.
  - unfold_setters. split; [done|unfold unescape_errors; simpl; lia].
  - unfold_setters. rewrite unescape_errors_app. simpl. split; [done|unfold unescape_errors; simpl; lia].
  - unfold_setters. split; [done|unfold unescape_errors; simpl; lia].
Qed.

Lemma records_run_pending u h s s' :
  records_run u h s s' ->
  (List.map t_uri (st_tasks s) ++ pending (st_drain s)
   = List.map t_uri (st_tasks s') ++ pending (st_drain s'))%list /\
  unescape_errors (st_log s) + pending_bad (st_drain s)
  = unescape_errors (st_log s') + pending_bad (st_drain s').
Proof.
  induction 1 as [s|s1 s2 s3 H12 _ [IH1 IH2]]; [done|].
  destruct (records_step_pending _ _ _ _ H12) as [E1 E2]. split; congruence.
Qed.

(** Running the range over [rs] to its end launches one task per
    record whose key unescapes, in order, and reports one error per
    record whose key does not. *)
Lemma records_run_dispatch u h s1 s2 rs :
  st_drain s1 = DRecords rs -> records_run u h s1 s2 -> st_drain s2 = DSelect ->
  List.map t_uri (st_tasks s2) = (List.map t_uri (st_tasks s1) ++ dispatched rs)%list /\
  unescape_errors (st_log s2) = unescape_errors (st_log s1) + bad_keys rs.
Proof.
  intros H1 Hr H2.
  destruct (records_run_pending _ _ _ _ Hr) as [E1 E2].
  rewrite H1, H2 in *. simpl in *. rewrite app_nil_r in E1. split; [done|lia].
Qed.

Lemma dispatched_app rs rs' : dispatched (rs ++ rs') = (dispatched rs ++ dispatched rs')%list.
Proof. unfold dispatched. apply omap_app. Qed.

Lemma bad_keys_app rs rs' : bad_keys (rs ++ rs') = bad_keys rs + bad_keys rs'.
Proof.
  unfold bad_keys. induction rs as [|r rs IH]; simpl; [done|].
  destruct (query_unescape (rec_key r)); simpl; lia.
Qed.

Lemma dispatched_in r rs k :
  In r rs -> query_unescape (rec_key r) = Some k ->
  In (locator (rec_bucket r) k) (dispatched rs).
Proof.
  intros Hin Hk. apply list_elem_of_In, list_elem_of_omap.
  exists r. split; [by apply list_elem_of_In|]. by rewrite Hk.
Qed.

Lemma message_records u h s0 s1 m q rs :
  st_drain s0 = DSelect -> st_queue s0 = Some m :: q ->
  step u h s0 s1 -> st_queue s1 = q -> st_drain s1 = DRecords rs ->
  (exists body, msg_body m = Some body /\ u body = Some rs) /\ st_tasks s1 = st_tasks s0.
Proof.
  intros Hd Hq Hs Hq' Hd1.
  destruct (queue_step _ _ _ _ _ _ Hd Hq Hs Hq') as (del & ev & r & Hm & ->).
  split; [|reflexivity].
  unfold set_drain in Hd1. simpl in Hd1.
  destruct r as [rs'|]; [|discriminate]. injection Hd1 as ->.
  unfold drain_message, acknowledge in Hm.
  destruct (msg_body m) as [body|]; [|discriminate].
  exists body. split; [done|].
  destruct (msg_receipt m); [destruct del|]; simpl in Hm; try discriminate;
    destruct (u body); congruence.
Qed.

(** ** C3: one task per record whose key unescapes *)

(** C3 (amended).  When [drain] takes a message off the queue and goes
    on to range over records [rs] (the message was acknowledged and its
    body unmarshals to [rs]), and [ctx] is not cancelled before that
    range ends, the tasks launched are exactly one per record of [rs]
    whose key [url.QueryUnescape] accepts, in record order, with the
    locator of that record; a record whose key it rejects gets none. *)
Theorem message_dispatches_decodable_records u h s0 s1 s2 m q rs :
  st_drain s0 = DSelect -> st_queue s0 = Some m :: q ->
  step u h s0 s1 -> st_queue s1 = q -> st_drain s1 = DRecords rs ->
  records_run u h s1 s2 -> st_drain s2 = DSelect ->
  (exists body, msg_body m = Some body /\ u body = Some rs) /\
  List.map t_uri (st_tasks s2) = (List.map t_uri (st_tasks s0) ++ dispatched rs)%list.
Proof.
  intros Hd Hq Hs Hq' Hd1 Hr Hd2.
  destruct (message_records _ _ _ _ _ _ _ Hd Hq Hs Hq' Hd1) as [Hb Ht].
  split; [done|]. rewrite <- Ht. apply (records_run_dispatch _ _ _ _ _ Hd1 Hr Hd2).
Qed.

Lemma message_dispatches_decodable_records_witness :
  st_drain mixed_s0 = DSelect /\ st_queue mixed_s0 = Some mixed_msg :: [] /\
  step (json_decoder [mixed_recs]) stop_handler mixed_s0 mixed_s1 /\ st_queue mixed_s1 = [] /\
  st_drain mixed_s1 = DRecords mixed_recs /\
  records_run (json_decoder [mixed_recs]) stop_handler mixed_s1 mixed_s2 /\
  st_drain mixed_s2 = DSelect /\
  ((exists body, msg_body mixed_msg = Some body /\ json_decoder [mixed_recs] body = Some mixed_recs) /\
   List.map t_uri (st_tasks mixed_s2) = (List.map t_uri (st_tasks mixed_s0) ++ dispatched mixed_recs)%list).
Proof.
  assert (Hs : step (json_decoder [mixed_recs]) stop_handler mixed_s0 mixed_s1).
  { apply (run1_step _ _ (SDrain true)). vm_compute. reflexivity. }
  assert (Hr : records_run (json_decoder [mixed_recs]) stop_handler mixed_s1 mixed_s2).
  { apply (run_records_run _ _ [SDrain true; SDrain true; SDrain true; SDrain true;
                                SDrain true; SDrain true]).
    vm_compute. reflexivity. }
  do 7 (split; [first [exact Hs | exact Hr | vm_compute; reflexivity]|]).
  exact (message_dispatches_decodable_records _ _ mixed_s0 mixed_s1 mixed_s2 mixed_msg [] mixed_recs
           ltac:(vm_compute; reflexivity) ltac:(vm_compute; reflexivity) Hs
           ltac:(vm_compute; reflexivity) ltac:(vm_compute; reflexivity) Hr
           ltac:(vm_compute; reflexivity)).
Defined.

(** C3 (counterexample).  A message whose body unmarshals to one record
    with the key "%" leads to no task at all. *)
Lemma bad_key_record_gets_no_task :
  ~ (forall s0 s1 s2 m q rs,
       st_drain s0 = DSelect -> st_queue s0 = Some m :: q ->
       step (json_decoder [bad_recs]) stop_handler s0 s1 -> st_queue s1 = q ->
       st_drain s1 = DRecords rs ->
       records_run (json_decoder [bad_recs]) stop_handler s1 s2 -> st_drain s2 = DSelect ->
       List.length (st_tasks s2) = List.length (st_tasks s0) + List.length rs).
Proof.
  intros H.
  assert (Hs : step (json_decoder [bad_recs]) stop_handler bad_s0 bad_s1).
  { apply (run1_step _ _ (SDrain true)). vm_compute. reflexivity. }
  assert (Hr : records_run (json_decoder [bad_recs]) stop_handler bad_s1 bad_s2).
  { apply (run_records_run _ _ [SDrain true; SDrain true]). vm_compute. reflexivity. }
  specialize (H bad_s0 bad_s1 bad_s2 bad_msg [] bad_recs
                ltac:(vm_compute; reflexivity) ltac:(vm_compute; reflexivity) Hs
                ltac:(vm_compute; reflexivity) ltac:(vm_compute; reflexivity) Hr
                ltac:(vm_compute; reflexivity)).
  vm_compute in H. discriminate.
Qed.

(** ** C7: a key that does not unescape skips only its record *)

Lemma dispatched_cons_bad r rs :
  query_unescape (rec_key r) = None -> dispatched (r :: rs) = dispatched rs.
Proof. intros Hk. unfold dispatched. simpl. by rewrite Hk. Qed.

Lemma bad_keys_cons_bad r rs :
  query_unescape (rec_key r) = None -> bad_keys (r :: rs) = S (bad_keys rs).
Proof. intros Hk. unfold bad_keys. simpl. by rewrite Hk. Qed.

(** C7.  When [drain] ranges over [rs1 ++ r :: rs2] and the key of [r]
    does not unescape, and [ctx] is not cancelled before the range ends:
    [r] gets no task and one error report of its own, and every record
    of [rs1] and [rs2] whose key unescapes still gets its task, with its
    own locator, in order. *)
Theorem bad_key_skips_only_its_record u h s1 s2 rs1 r rs2 :
  st_drain s1 = DRecords (rs1 ++ r :: rs2) -> query_unescape (rec_key r) = None ->
  records_run u h s1 s2 -> st_drain s2 = DSelect ->
  List.map t_uri (st_tasks s2)
    = (List.map t_uri (st_tasks s1) ++ dispatched rs1 ++ dispatched rs2)%list /\
  unescape_errors (st_log s2) = unescape_errors (st_log s1) + bad_keys rs1 + 1 + bad_keys rs2 /\
  (forall r' k, In r' (rs1 ++ rs2) -> query_unescape (rec_key r') = Some k ->
     In (locator (rec_bucket r') k) (List.map t_uri (st_tasks s2))).
Proof.
  intros Hd Hk Hr Hd2.
  destruct (records_run_dispatch _ _ _ _ _ Hd Hr Hd2) as [E1 E2].
  rewrite dispatched_app, dispatched_cons_bad in E1 by done.
  rewrite bad_keys_app, bad_keys_cons_bad in E2 by done.
  split; [done|]. split; [lia|].
  intros r' k Hin Hk'. rewrite E1. apply in_or_app. right.
  rewrite <- dispatched_app. by apply dispatched_in.
Qed.

Lemma bad_key_skips_only_its_record_witness :
  st_drain mixed_s1 = DRecords ([rec_of "b" "a%2Fb.json"] ++ rec_of "b" "x%zz" :: [rec_of "b" "c+d.json"])%list /\
  query_unescape (rec_key (rec_of "b" "x%zz")) = None /\
  records_run (json_decoder [mixed_recs]) stop_handler mixed_s1 mixed_s2 /\
  st_drain mixed_s2 = DSelect /\
  (List.map t_uri (st_tasks mixed_s2)
     = (List.map t_uri (st_tasks mixed_s1) ++ dispatched [rec_of "b" "a%2Fb.json"]
        ++ dispatched [rec_of "b" "c+d.json"])%list /\
   unescape_errors (st_log mixed_s2)
     = unescape_errors (st_log mixed_s1) + bad_keys [rec_of "b" "a%2Fb.json"] + 1
       + bad_keys [rec_of "b" "c+d.json"] /\
   (forall r' k, In r' ([rec_of "b" "a%2Fb.json"] ++ [rec_of "b" "c+d.json"])%list ->
      query_unescape (rec_key r') = Some k ->
      In (locator (rec_bucket r') k) (List.map t_uri (st_tasks mixed_s2)))).
Proof.
  assert (Hr : records_run (json_decoder [mixed_recs]) stop_handler mixed_s1 mixed_s2).
  { apply (run_records_run _ _ [SDrain true; SDrain true; SDrain true; SDrain true;
                                SDrain true; SDrain true]).
    vm_compute. reflexivity. }
  do 4 (split; [first [exact Hr | vm_compute; reflexivity]|]).
  exact (bad_key_skips_only_its_record _ _ mixed_s1 mixed_s2
           [rec_of "b" "a%2Fb.json"] (rec_of "b" "x%zz") [rec_of "b" "c+d.json"]
           ltac:(vm_compute; reflexivity) ltac:(vm_compute; reflexivity) Hr
           ltac:(vm_compute; reflexivity)).
Defined.

(** ** C8: accounting of one fetch *)

(** C8.  Each [ingest] action has exactly the effect [action_events]
    on the log (and [ARelease] returns one unit).  Whatever [Load]
    returns, the goroutine releases exactly one unit.  When [Load]
    fails, it increments the "s3readerror" counter exactly once,
    reports the load error exactly once and never calls the handler;
    when it succeeds, it does not touch the counter and calls the
    handler exactly once, with the payload. *)
Theorem fetch_failure_accounting uri r :
  (forall h a s, st_log (exec_action h a s) = (st_log s ++ action_events a)%list /\
                 st_cur (exec_action h a s) = if is_release a then st_cur s - 1 else st_cur s) /\
  releases (ingest_after_load r) = 1 /\
  match r with
  | LoadErr =>
      count_events is_failure_count (ingest_events uri r) = 1 /\
      count_events is_load_error (ingest_events uri r) = 1 /\
      count_events is_handler_call (ingest_events uri r) = 0
  | LoadOk data =>
      count_events is_failure_count (ingest_events uri r) = 0 /\
      List.filter is_handler_call (ingest_events uri r) = [EHandle data]
  end.
Proof.
  split.
  { intros h a s. destruct a; simpl; split; try reflexivity. by rewrite app_nil_r. }
  destruct r; vm_compute; auto.
Qed.

(** ** C10: [url.QueryUnescape] and the locator *)

Lemma unescape_scan_shift s n hp :
  unescape_scan s n hp =
  match unescape_scan s 0 false with
  | Some (a, b) => Some (n + a, hp || b)
  | None => None
  end.
Proof.
  remember (String.length s) as len eqn:Hlen.
  revert s Hlen n hp. induction len as [len IH] using lt_wf_ind.
  intros [|c rest] Hlen n hp; simpl; [by rewrite Nat.add_0_r, orb_false_r|].
  destruct (Ascii.eqb c "%") eqn:Hp.
  - destruct rest as [|h1 [|h2 rest']]; try reflexivity.
    destruct (ishex h1 && ishex h2); [|reflexivity].
    simpl in Hlen.
    rewrite (IH (String.length rest') ltac:(lia) rest' eq_refl (S n) hp).
    rewrite (IH (String.length rest') ltac:(lia) rest' eq_refl 1 false).
    destruct (unescape_scan rest' 0 false) as [[a b]|]; [|reflexivity].
    simpl. do 2 f_equal. lia.
  - simpl in Hlen.
    destruct (Ascii.eqb c "+").
    + rewrite (IH (String.length rest) ltac:(lia) rest eq_refl n true).
      rewrite (IH (String.length rest) ltac:(lia) rest eq_refl 0 true).
      destruct (unescape_scan rest 0 false) as [[a b]|]; simpl; [|reflexivity].
      by rewrite orb_true_r.
    + rewrite (IH (String.length rest) ltac:(lia) rest eq_refl n hp).
      destruct (unescape_scan rest 0 false) as [[a b]|]; reflexivity.
Qed.

Lemma unescape_build_id s :
  unescape_scan s 0 false = Some (0, false) -> unescape_build s = s.
Proof.
  induction s as [|c rest IH]; simpl; [done|].
  destruct (Ascii.eqb c "%") eqn:Hp.
  - destruct rest as [|h1 [|h2 rest']]; try discriminate.
    destruct (ishex h1 && ishex h2); [|discriminate].
    rewrite unescape_scan_shift.
    destruct (unescape_scan rest' 0 false) as [[a b]|]; intros [=]; lia.
  - destruct (Ascii.eqb c "+") eqn:Hq.
    + rewrite unescape_scan_shift.
      destruct (unescape_scan rest 0 false) as [[a b]|]; discriminate.
    + intros H. apply Ascii.eqb_neq in Hp. by rewrite (IH H).
Qed.

Lemma query_unescape_alt s :
  query_unescape s =
  match unescape_scan s 0 false with Some _ => Some (unescape_build s) | None => None end.
Proof.
  unfold query_unescape.
  destruct (unescape_scan s 0 false) as [[n hp]|] eqn:Hs; [|done].
  destruct (Nat.eqb n 0 && negb hp) eqn:E; [|done].
  apply andb_true_iff in E as [En Eh]. apply Nat.eqb_eq in En.
  destruct hp; [discriminate|]. subst n. by rewrite (unescape_build_id s Hs).
Qed.

Example mixed_locators :
  List.map t_uri (st_tasks mixed_s2) = ["s3://b/a/b.json"; "s3://b/c d.json"].
Proof. vm_compute. reflexivity. Qed.

(* ------------------------------------------------------------------ *)
(** * Further properties *)

(** ** [url.QueryUnescape] on record keys *)

Lemma ishex_not_percent c : ishex c = true -> Ascii.eqb c "%" = false.
Proof.
  intros H. destruct (Ascii.eqb c "%") eqn:E; [|done].
  apply Ascii.eqb_eq in E. subst c. discriminate.
Qed.

Lemma scan_no_percent s :
  count_char "%" s = 0 ->
  unescape_scan s 0 false <> None /\ unescape_build s = plus_to_space s.
Proof.
  induction s as [|c rest IH]; simpl; [done|].
  destruct (Ascii.eqb c "%") eqn:Hp; [lia|]. simpl. intros H.
  destruct (IH H) as [Hs Hb]. rewrite Hb.
  destruct (Ascii.eqb c "+"); split; try reflexivity;
    rewrite unescape_scan_shift;
    destruct (unescape_scan rest 0 false) as [[a b]|]; done.
Qed.

(** A key without any '%' always unescapes, to the key with every '+'
    turned into a space. *)
Theorem no_percent_key_decodes s :
  count_char "%" s = 0 -> query_unescape s = Some (plus_to_space s).
Proof.
  intros H. destruct (scan_no_percent s H) as [Hs Hb].
  rewrite query_unescape_alt, <- Hb.
  destruct (unescape_scan s 0 false); [done|congruence].
Qed.

Lemma no_percent_key_decodes_witness :
  count_char "%" "a+b/c.json" = 0 /\
  query_unescape "a+b/c.json" = Some (plus_to_space "a+b/c.json").
Proof.
  split; [reflexivity|]. apply no_percent_key_decodes. reflexivity.
Defined.

Lemma scan_malformed s1 s2 n hp :
  escape_ok s2 = false -> unescape_scan (s1 ++ String "%" s2) n hp = None.
Proof.
  intros He.
  remember (String.length s1) as len eqn:Hlen.
  revert s1 Hlen n hp. induction len as [len IH] using lt_wf_ind.
  intros [|c r] Hlen n hp; simpl.
  - destruct s2 as [|h1 [|h2 r2]]; try reflexivity.
    simpl in He. by rewrite He.
  - simpl in Hlen.
    destruct (Ascii.eqb c "%").
    + destruct r as [|h1 [|h2 r']]; simpl.
      * destruct s2 as [|h2 r2]; [reflexivity|]. reflexivity.
      * by rewrite andb_false_r.
      * destruct (ishex h1 && ishex h2); [|reflexivity].
        simpl in Hlen. apply (IH (String.length r')); [lia|reflexivity].
    + destruct (Ascii.eqb c "+"); apply (IH (String.length r)); (lia || reflexivity).
Qed.

(** One '%' that is not followed by two hex digits, anywhere in a key,
    makes [url.QueryUnescape] reject the whole key, whatever comes
    before or after it. *)
Theorem malformed_escape_rejects_key s1 s2 :
  escape_ok s2 = false -> query_unescape (s1 ++ String "%" s2) = None.
Proof.
  intros He. unfold query_unescape. by rewrite scan_malformed.
Qed.

Lemma malformed_escape_rejects_key_witness :
  escape_ok "zz.json" = false /\ query_unescape ("dir%2F" ++ String "%" "zz.json") = None.
Proof.
  split; [reflexivity|]. apply malformed_escape_rejects_key. reflexivity.
Defined.

Lemma build_length s n hp x :
  unescape_scan s n hp = Some x ->
  String.length (unescape_build s) + 2 * count_char "%" s = String.length s.
Proof.
  remember (String.length s) as len eqn:Hlen.
  revert s Hlen n hp. induction len as [len IH] using lt_wf_ind.
  intros [|c rest] Hlen n hp; simpl; [done|]. simpl in Hlen.
  destruct (Ascii.eqb c "%") eqn:Hp.
  - destruct rest as [|h1 [|h2 rest']]; try discriminate.
    destruct (ishex h1) eqn:H1, (ishex h2) eqn:H2; try discriminate. simpl.
    rewrite (ishex_not_percent _ H1), (ishex_not_percent _ H2).
    intros Hs. simpl in Hlen.
    pose proof (IH (String.length rest') ltac:(lia) rest' eq_refl _ _ Hs). simpl. lia.
  - destruct (Ascii.eqb c "+"); intros Hs; simpl;
      pose proof (IH (String.length rest) ltac:(lia) rest eq_refl _ _ Hs); lia.
Qed.

(** Every escape "%XX" of a key becomes one byte and every other byte
    stays one byte: the unescaped key is shorter than the key by twice
    its number of '%'. *)
Theorem unescape_length s d :
  query_unescape s = Some d ->
  String.length d + 2 * count_char "%" s = String.length s.
Proof.
  rewrite query_unescape_alt.
  destruct (unescape_scan s 0 false) as [x|] eqn:Hs; [|discriminate].
  intros [= <-]. exact (build_length _ _ _ _ Hs).
Qed.

Lemma unescape_length_witness :
  query_unescape "a%2Fb+c%41" = Some "a/b cA" /\
  String.length "a/b cA" + 2 * count_char "%" "a%2Fb+c%41" = String.length "a%2Fb+c%41".
Proof.
  split; [reflexivity|]. apply unescape_length. reflexivity.
Defined.

(** ** The semaphore is never released more than it is held *)

(** An [ingest] goroutine about to run its deferred
    [s.limit.Release(1)] finds at least one unit held, so the
    semaphore's "released more than held" panic never happens; and it
    releases nothing after that. *)
Theorem release_never_exceeds_held u h numcpu q s i t acts :
  reachable u h (range q (new_with numcpu)) s ->
  st_tasks s !! i = Some t -> t_pc t = TRun (ARelease :: acts) ->
  1 <= st_cur s /\ existsb is_release acts = false.
Proof.
  intros Hr Hi Hp.
  destruct (sem_inv_reachable _ _ _ _ Hr (sem_inv_range numcpu q)) as (Hwf & Hcur & _).
  pose proof (held_pos _ _ _ Hi ltac:(unfold unreleased; by rewrite Hp)).
  split; [lia|].
  destruct (proj1 (Forall_lookup _ _) Hwf i t Hi) as [Hl|(r & n & Hn)]; [congruence|].
  rewrite Hp in Hn. injection Hn as Hn. symmetry in Hn.
  exact (release_once _ _ _ Hn).
Qed.

Lemma release_never_exceeds_held_witness :
  reachable (json_decoder [one_rec]) stop_handler (range one_queue (new_with 1)) release_state /\
  st_tasks release_state !! 0 =
    Some {| t_uri := "s3://b/a/b.json"; t_pc := TRun [ARelease; ADuration ctxTag "s3sqs"] |} /\
  (1 <= st_cur release_state /\ existsb is_release [ADuration ctxTag "s3sqs"] = false).
Proof.
  assert (Hr : reachable (json_decoder [one_rec]) stop_handler
                 (range one_queue (new_with 1)) release_state).
  { apply (run_reachable _ _ [SDrain true; SDrain true; SDrain true;
                              SLoad 0 (LoadOk "payload"); SAct 0]).
    vm_compute. reflexivity. }
  assert (Hi : st_tasks release_state !! 0 =
    Some {| t_uri := "s3://b/a/b.json"; t_pc := TRun [ARelease; ADuration ctxTag "s3sqs"] |})
    by (vm_compute; reflexivity).
  split; [exact Hr|]. split; [exact Hi|].
  exact (release_never_exceeds_held _ _ 1 one_queue release_state 0 _ _ Hr Hi eq_refl).
Defined.

(** ** Nothing is launched after [Close] returned or [drain] exited *)

Lemma returned_step u h s s' :
  step u h s s' -> sem_inv s -> st_close s = CReturned ->
  st_close s' = CReturned /\ List.map t_uri (st_tasks s') = List.map t_uri (st_tasks s).
Proof.
  intros Hs (Hwf & Hcur & Hle) Hc.
  destruct Hs as [s Hd Hc0|s om q del ev r Hd Hq Hm|s Hd|s r rs Hd Hk
                 |s r rs key Hd Hk Hl|s r rs key Hd Hk Hc0|s b k rs Hd
                 |s i t r Hi Hp|s i t a acts Hi Hp|s Hc0 Hs|s Hc0 Hs|s Hc0|s Hc0 Hl];
    try congruence.
  8:{ unfold_setters. split; [done|]. by erewrite uris_insert; [|exact Hi|reflexivity]. }
  8:{ rewrite exec_action_tasks, exec_action_close.
      unfold_setters. split; [done|]. by erewrite uris_insert; [|exact Hi|reflexivity]. }
  7:{ unfold_setters. rewrite Hd, Hc in Hcur. simpl in Hcur. lia. }
  all: unfold_setters; auto.
Qed.

Lemma returned_forever u h numcpu q s s' :
  reachable u h (range q (new_with numcpu)) s -> st_close s = CReturned ->
  reachable u h s s' ->
  st_close s' = CReturned /\ st_cur s' = st_size s' /\
  List.map t_uri (st_tasks s') = List.map t_uri (st_tasks s).
Proof.
  intros Hr Hc Hr'. revert Hr Hc.
  induction Hr' as [s|s1 s2 s3 H12 _ IH]; intros Hr Hc.
  - destruct (sem_inv_reachable _ _ _ _ Hr (sem_inv_range numcpu q)) as (_ & Hcur & Hle).
    unfold close_units in Hcur. rewrite Hc in Hcur. split; [done|]. split; [lia|done].
  - pose proof (sem_inv_reachable _ _ _ _ Hr (sem_inv_range numcpu q)) as Hinv.
    destruct (returned_step _ _ _ _ H12 Hinv Hc) as [Hc2 Hu2].
    assert (Hr2 : reachable u h (range q (new_with numcpu)) s2) by (eapply rtc_r; eauto).
    destruct (IH Hr2 Hc2) as (? & ? & Hu3). split; [done|]. split; [done|congruence].
Qed.

(** Once [Close] has returned, it holds all [concurrency] units for
    good: in every later state [Close] is still returned, no unit is
    free, and no [ingest] goroutine is ever launched again. *)
Theorem no_task_after_close u h numcpu q s s' :
  reachable u h (range q (new_with numcpu)) s -> st_close s = CReturned ->
  reachable u h s s' ->
  st_close s' = CReturned /\ st_cur s' = st_size s' /\
  List.map t_uri (st_tasks s') = List.map t_uri (st_tasks s).
Proof. exact (returned_forever u h numcpu q s s'). Qed.

Lemma no_task_after_close_witness :
  reachable (json_decoder [one_rec]) stop_handler (range one_queue (new_with 1)) close_state /\
  st_close close_state = CReturned /\
  reachable (json_decoder [one_rec]) stop_handler close_state after_close_state /\
  (st_close after_close_state = CReturned /\ st_cur after_close_state = st_size after_close_state /\
   List.map t_uri (st_tasks after_close_state) = List.map t_uri (st_tasks close_state)).
Proof.
  assert (Hr : reachable (json_decoder [one_rec]) stop_handler
                 (range one_queue (new_with 1)) close_state).
  { apply (run_reachable _ _ close_choices). vm_compute. reflexivity. }
  assert (Hr' : reachable (json_decoder [one_rec]) stop_handler close_state after_close_state).
  { apply (run_reachable _ _ [SAct 0]). vm_compute. reflexivity. }
  assert (Hc : st_close close_state = CReturned) by (vm_compute; reflexivity).
  split; [exact Hr|]. split; [exact Hc|]. split; [exact Hr'|].
  exact (no_task_after_close _ _ 1 one_queue close_state after_close_state Hr Hc Hr').
Defined.

Lemma exit_step u h s s' :
  step u h s s' -> st_drain s = DExit ->
  st_drain s' = DExit /\ st_queue s' = st_queue s /\
  List.map t_uri (st_tasks s') = List.map t_uri (st_tasks s).
Proof.
  intros Hs Hd0.
  destruct Hs as [s Hd Hc0|s om q del ev r Hd Hq Hm|s Hd|s r rs Hd Hk
                 |s r rs key Hd Hk Hl|s r rs key Hd Hk Hc0|s b k rs Hd
                 |s i t r Hi Hp|s i t a acts Hi Hp|s Hc0 Hs|s Hc0 Hs|s Hc0|s Hc0 Hl];
    try congruence; try (unfold_setters; auto; fail).
  - unfold_setters. split; [done|]. split; [done|].
    by erewrite uris_insert; [|exact Hi|reflexivity].
  - rewrite exec_action_tasks, exec_action_drain, exec_action_queue.
    unfold_setters. split; [done|]. split; [done|].
    by erewrite uris_insert; [|exact Hi|reflexivity].
Qed.

(** Once [drain] has returned on [ctx.Done()], it never runs again: no
    further message is taken off the queue and no [ingest] goroutine is
    launched. *)
Theorem drain_exit_is_final u h s s' :
  reachable u h s s' -> st_drain s = DExit ->
  st_drain s' = DExit /\ st_queue s' = st_queue s /\
  List.map t_uri (st_tasks s') = List.map t_uri (st_tasks s).
Proof.
  induction 1 as [s|s1 s2 s3 H12 _ IH]; intros Hd; [done|].
  destruct (exit_step _ _ _ _ H12 Hd) as (Hd2 & Hq2 & Hu2).
  destruct (IH Hd2) as (? & ? & ?). split; [done|]. split; congruence.
Qed.

Lemma drain_exit_is_final_witness :
  reachable (json_decoder []) stop_handler exit_s1 exit_s2 /\ st_drain exit_s1 = DExit /\
  (st_drain exit_s2 = DExit /\ st_queue exit_s2 = st_queue exit_s1 /\
   List.map t_uri (st_tasks exit_s2) = List.map t_uri (st_tasks exit_s1)).
Proof.
  assert (Hr : reachable (json_decoder []) stop_handler exit_s1 exit_s2).
  { apply (run_reachable _ _ [SClose; SClose]). vm_compute. reflexivity. }
  assert (Hd : st_drain exit_s1 = DExit) by (vm_compute; reflexivity).
  split; [exact Hr|]. split; [exact Hd|].
  exact (drain_exit_is_final _ _ exit_s1 exit_s2 Hr Hd).
Defined.

(** ** Deletion follows the queue *)

Lemma deletes_app l l' : deletes (l ++ l') = (deletes l ++ deletes l')%list.
Proof. apply omap_app. Qed.

Lemma exec_action_deletes h a s :
  deletes (st_log (exec_action h a s)) = deletes (st_log s).
Proof.
  destruct a; unfold exec_action, emit, set_cur; cbn [st_log];
    rewrite ?deletes_app; simpl; rewrite ?app_nil_r; reflexivity.
Qed.

Lemma drain_message_deletes u del om ev r :
  drain_message u del om = (ev, r) -> deletes ev = omap deletable [om].
Proof.
  destruct om as [m|]; simpl; [|by intros [= <- _]].
  unfold drain_message, acknowledge, deletable.
  destruct (msg_body m) as [b|]; [|by intros [= <- _]].
  destruct (msg_receipt m); [destruct del|]; simpl;
    try (destruct (u b)); by intros [= <- _].
Qed.

Lemma deletes_step u h s s' q0 consumed :
  step u h s s' -> q0 = (consumed ++ st_queue s)%list ->
  deletes (st_log s) = omap deletable consumed ->
  exists consumed', q0 = (consumed' ++ st_queue s')%list /\
    deletes (st_log s') = omap deletable consumed'.
Proof.
  intros Hs Hq0 Hdel.
  destruct Hs as [s Hd Hc0|s om q del ev r Hd Hq Hm|s Hd|s r rs Hd Hk
                 |s r rs key Hd Hk Hl|s r rs key Hd Hk Hc0|s b k rs Hd
                 |s i t r Hi Hp|s i t a acts Hi Hp|s Hc0 Hs|s Hc0 Hs|s Hc0|s Hc0 Hl].
  2:{ exists (consumed ++ [om])%list. unfold_setters. split.
      - rewrite Hq0, Hq, <- app_assoc. reflexivity.
      - rewrite deletes_app, Hdel, omap_app. f_equal. exact (drain_message_deletes _ _ _ _ _ Hm). }
  8:{ exists consumed. rewrite exec_action_queue, exec_action_deletes. unfold_setters. done. }
  all: exists consumed; unfold_setters; split; [done|];
    rewrite ?deletes_app, Hdel; simpl; by rewrite ?app_nil_r.
Qed.

(** [s.sqs.DeleteMessage] is called exactly once for each message taken
    off the queue that has a body and a receipt handle, in queue order,
    and for nothing else: never for a nil message, a message without a
    body, or one without a receipt handle. *)
Theorem deletes_follow_queue u h numcpu q s :
  reachable u h (range q (new_with numcpu)) s ->
  exists consumed, q = (consumed ++ st_queue s)%list /\
    deletes (st_log s) = omap deletable consumed.
Proof.
  intros Hr.
  assert (H0 : exists consumed, q = (consumed ++ st_queue (range q (new_with numcpu)))%list /\
    deletes (st_log (range q (new_with numcpu))) = omap deletable consumed)
    by (exists []; split; reflexivity).
  revert H0. induction Hr as [s|s1 s2 s3 H12 _ IH]; intros H0; [done|].
  apply IH. destruct H0 as (c & Hq & Hd). exact (deletes_step _ _ _ _ _ _ H12 Hq Hd).
Qed.

Lemma deletes_follow_queue_witness :
  reachable (json_decoder [mixed_recs]) stop_handler (range [Some mixed_msg] (new_with 1)) mixed_s2 /\
  exists consumed, [Some mixed_msg] = (consumed ++ st_queue mixed_s2)%list /\
    deletes (st_log mixed_s2) = omap deletable consumed.
Proof.
  assert (Hr : reachable (json_decoder [mixed_recs]) stop_handler
                 (range [Some mixed_msg] (new_with 1)) mixed_s2).
  { apply (run_reachable _ _ [SDrain true; SDrain true; SDrain true; SDrain true;
                              SDrain true; SDrain true; SDrain true]).
    vm_compute. reflexivity. }
  split; [exact Hr|].
  exact (deletes_follow_queue _ _ 1 [Some mixed_msg] mixed_s2 Hr).
Defined.

(** ** Every task fetches a record of a consumed message *)

Lemma named_by_app u c c' uri : named_by u c uri -> named_by u (c ++ c') uri.
Proof.
  intros (m & b & rs & Hin & Hb & Hu & Hd). exists m, b, rs.
  split; [apply in_or_app; by left|auto].
Qed.

Lemma drain_message_records u del om ev rs :
  drain_message u del om = (ev, Some rs) ->
  exists m body, om = Some m /\ msg_body m = Some body /\ u body = Some rs.
Proof.
  destruct om as [m|]; simpl; [|discriminate].
  unfold drain_message, acknowledge.
  destruct (msg_body m) as [b|] eqn:Hb; [|intros [=]].
  intros Hm. exists m, b. split; [done|]. split; [done|].
  destruct (msg_receipt m); [destruct del|]; simpl in Hm; try discriminate;
    destruct (u b); congruence.
Qed.

Lemma dispatched_cons_good r rs k :
  query_unescape (rec_key r) = Some k ->
  dispatched (r :: rs) = locator (rec_bucket r) k :: dispatched rs.
Proof. intros Hk. unfold dispatched. simpl. by rewrite Hk. Qed.

Lemma named_step u h s s' q0 consumed :
  step u h s s' -> q0 = (consumed ++ st_queue s)%list ->
  Forall (named_by u consumed) (uris_pending s) ->
  exists consumed', q0 = (consumed' ++ st_queue s')%list /\
    Forall (named_by u consumed') (uris_pending s').
Proof.
  intros Hs Hq0 Hn. unfold uris_pending in *.
  destruct Hs as [s Hd Hc0|s om q del ev r Hd Hq Hm|s Hd|s r rs Hd Hk
                 |s r rs key Hd Hk Hl|s r rs key Hd Hk Hc0|s b k rs Hd
                 |s i t r Hi Hp|s i t a acts Hi Hp|s Hc0 Hs|s Hc0 Hs|s Hc0|s Hc0 Hl].
  - exists consumed. unfold_setters. rewrite Hd in Hn. done.
  - exists (consumed ++ [om])%list. unfold_setters. rewrite Hd in Hn. simpl in Hn.
    rewrite app_nil_r in Hn. split; [rewrite Hq0, Hq, <- app_assoc; reflexivity|].
    apply Forall_app. split.
    + eapply Forall_impl; [exact Hn|]. intros uri. apply named_by_app.
    + destruct r as [rs|]; simpl; [|constructor].
      destruct (drain_message_records _ _ _ _ _ Hm) as (m & b & -> & Hb & Hu).
      apply Forall_forall. intros uri Huri. exists m, b, rs.
      split; [apply in_or_app; right; by left|].
      split; [done|]. split; [done|]. by apply list_elem_of_In.
  - exists consumed. unfold_setters. rewrite Hd in Hn. done.
  - exists consumed. rewrite Hd in Hn. cbn [pending] in Hn.
    rewrite dispatched_cons_bad in Hn by done. unfold_setters. done.
  - exists consumed. rewrite Hd in Hn. cbn [pending] in Hn.
    rewrite (dispatched_cons_good _ _ _ Hk) in Hn. unfold_setters. done.
  - exists consumed. rewrite Hd in Hn. cbn [pending] in Hn.
    rewrite (dispatched_cons_good _ _ _ Hk) in Hn. unfold_setters.
    split; [done|]. apply Forall_app in Hn as [Hn1 Hn2]. inversion Hn2; subst.
    apply Forall_app. by split.
  - exists consumed. unfold_setters. rewrite Hd in Hn. simpl in Hn.
    rewrite map_app, <- app_assoc. done.
  - exists consumed. unfold_setters. split; [done|].
    by erewrite uris_insert; [|exact Hi|reflexivity].
  - exists consumed. rewrite exec_action_queue, exec_action_tasks, exec_action_drain.
    unfold_setters. split; [done|]. by erewrite uris_insert; [|exact Hi|reflexivity].
  - exists consumed. unfold_setters. done.
  - exists consumed. unfold_setters. done.
  - exists consumed. unfold_setters. done.
  - exists consumed. unfold_setters. done.
Qed.

Lemma named_reachable u h numcpu q s :
  reachable u h (range q (new_with numcpu)) s ->
  exists consumed, q = (consumed ++ st_queue s)%list /\
    Forall (named_by u consumed) (List.map t_uri (st_tasks s)).
Proof.
  intros Hr.
  assert (H0 : exists consumed, q = (consumed ++ st_queue (range q (new_with numcpu)))%list /\
    Forall (named_by u consumed) (uris_pending (range q (new_with numcpu))))
    by (exists []; split; [reflexivity|constructor]).
  revert H0. induction Hr as [s|s1 s2 s3 H12 _ IH]; intros H0.
  - destruct H0 as (c & Hq & Hn). exists c. split; [done|].
    unfold uris_pending in Hn. by apply Forall_app in Hn as [Hn _].
  - apply IH. destruct H0 as (c & Hq & Hn). exact (named_step _ _ _ _ _ _ H12 Hq Hn).
Qed.

(** Every [ingest] goroutine ever launched fetches the locator of a
    record of a message already taken off the queue: the message has a
    body, the body unmarshals, and the record's key unescapes.  No
    object is fetched that no received message names. *)
Theorem tasks_only_for_consumed_records u h numcpu q s :
  reachable u h (range q (new_with numcpu)) s ->
  exists consumed, q = (consumed ++ st_queue s)%list /\
    Forall (named_by u consumed) (List.map t_uri (st_tasks s)).
Proof. exact (named_reachable u h numcpu q s). Qed.

Lemma tasks_only_for_consumed_records_witness :
  reachable (json_decoder [mixed_recs]) stop_handler (range [Some mixed_msg] (new_with 1)) mixed_s2 /\
  exists consumed, [Some mixed_msg] = (consumed ++ st_queue mixed_s2)%list /\
    Forall (named_by (json_decoder [mixed_recs]) consumed) (List.map t_uri (st_tasks mixed_s2)).
Proof.
  assert (Hr : reachable (json_decoder [mixed_recs]) stop_handler
                 (range [Some mixed_msg] (new_with 1)) mixed_s2).
  { apply (run_reachable _ _ [SDrain true; SDrain true; SDrain true; SDrain true;
                              SDrain true; SDrain true; SDrain true]).
    vm_compute. reflexivity. }
  split; [exact Hr|].
  exact (tasks_only_for_consumed_records _ _ 1 [Some mixed_msg] mixed_s2 Hr).
Defined.

(** ** [Close] calls [s.sqs.Close()] once, after [s.cancel()] *)

Lemma count_events_app p l l' :
  count_events p (l ++ l') = count_events p l + count_events p l'.
Proof.
  unfold count_events. induction l as [|e l IH]; simpl; [done|].
  destruct (p e); simpl; lia.
Qed.

Lemma count_events_one p e : count_events p [e] = if p e then 1 else 0.
Proof. unfold count_events. simpl. by destruct (p e). Qed.

Lemma exec_action_log h a s : st_log (exec_action h a s) = (st_log s ++ action_events a)%list.
Proof. destruct a; simpl; [..|by rewrite app_nil_r|]; reflexivity. Qed.

Lemma exec_action_cancel_set h a s : st_cancel_set (exec_action h a s) = st_cancel_set s.
Proof. destruct a; reflexivity. Qed.

Lemma sqs_close_step u h s s' :
  step u h s s' ->
  st_cancel_set s = true /\
  count_events is_sqs_close (st_log s) = close_past_sqs (st_close s) /\
  (st_close s <> CIdle -> st_cancelled s = true) ->
  st_cancel_set s' = true /\
  count_events is_sqs_close (st_log s') = close_past_sqs (st_close s') /\
  (st_close s' <> CIdle -> st_cancelled s' = true).
Proof.
  intros Hs (Hset & Hcnt & Hcan).
  destruct Hs as [s Hd Hc0|s om q del ev r Hd Hq Hm|s Hd|s r rs Hd Hk
                 |s r rs key Hd Hk Hl|s r rs key Hd Hk Hc0|s b k rs Hd
                 |s i t r Hi Hp|s i t a acts Hi Hp|s Hc0 Hs|s Hc0 Hs|s Hc0|s Hc0 Hl].
  9:{ rewrite exec_action_cancel_set, exec_action_log, count_events_app,
        exec_action_close, exec_action_cancelled.
      unfold_setters. split; [done|]. split; [|done].
      rewrite Hcnt. destruct a; cbn; lia. }
  10:{ congruence. }
  2:{ unfold_setters. rewrite count_events_app.
      assert (Hev : count_events is_sqs_close ev = 0).
      { revert Hm. destruct om as [m|]; simpl; [|by intros [= <- _]].
        unfold drain_message, acknowledge.
        destruct (msg_body m) as [b|]; [|by intros [= <- _]].
        destruct (msg_receipt m); [destruct del|]; simpl;
          try (destruct (u b)); by intros [= <- _]. }
      rewrite Hev. split; [done|]. split; [lia|done]. }
  all: unfold_setters; rewrite ?count_events_app, ?count_events_one; simpl;
    repeat split; try done; try lia;
    rewrite ?Hc0 in *; simpl in *; try lia; auto.
Qed.

Lemma sqs_close_reachable u h numcpu q s :
  reachable u h (range q (new_with numcpu)) s ->
  count_events is_sqs_close (st_log s) = close_past_sqs (st_close s) /\
  (st_close s <> CIdle -> st_cancelled s = true).
Proof.
  intros Hr.
  assert (H0 : st_cancel_set (range q (new_with numcpu)) = true /\
    count_events is_sqs_close (st_log (range q (new_with numcpu)))
      = close_past_sqs (st_close (range q (new_with numcpu))) /\
    (st_close (range q (new_with numcpu)) <> CIdle ->
       st_cancelled (range q (new_with numcpu)) = true))
    by (split; [reflexivity|]; split; [reflexivity|]; simpl; congruence).
  revert H0. induction Hr as [s|s1 s2 s3 H12 _ IH]; intros H0.
  - by destruct H0 as (_ & ? & ?).
  - apply IH. exact (sqs_close_step _ _ _ _ H12 H0).
Qed.

(** After [Range], [s.sqs.Close()] is called by [Close] exactly once,
    once [Close] has got past it (waiting in [Acquire] or returned),
    and never before; and whenever [Close] has started, [ctx] is
    already cancelled. *)
Theorem sqs_closed_once_after_cancel u h numcpu q s :
  reachable u h (range q (new_with numcpu)) s ->
  count_events is_sqs_close (st_log s) = close_past_sqs (st_close s) /\
  (st_close s <> CIdle -> st_cancelled s = true).
Proof. exact (sqs_close_reachable u h numcpu q s). Qed.

Lemma sqs_closed_once_after_cancel_witness :
  reachable (json_decoder [one_rec]) stop_handler (range one_queue (new_with 1)) close_state /\
  (count_events is_sqs_close (st_log close_state) = close_past_sqs (st_close close_state) /\
   (st_close close_state <> CIdle -> st_cancelled close_state = true)).
Proof.
  assert (Hr : reachable (json_decoder [one_rec]) stop_handler
                 (range one_queue (new_with 1)) close_state).
  { apply (run_reachable _ _ close_choices). vm_compute. reflexivity. }
  split; [exact Hr|].
  exact (sqs_closed_once_after_cancel _ _ 1 one_queue close_state Hr).
Defined.

(** ** [Load] runs once per task *)

Lemma started_count_app ts ts' :
  List.length (List.filter started (ts ++ ts'))
  = List.length (List.filter started ts) + List.length (List.filter started ts').
Proof. by rewrite List.filter_app, List.length_app. Qed.

Lemma started_count_insert ts i t t' :
  ts !! i = Some t ->
  List.length (List.filter started (<[i := t']> ts)) + (if started t then 1 else 0)
  = List.length (List.filter started ts) + (if started t' then 1 else 0).
Proof.
  revert i. induction ts as [|x ts IH]; intros i; [discriminate|].
  destruct i as [|i]; simpl.
  - intros [= ->]. destruct (started t), (started t'); simpl; lia.
  - intros Hi. specialize (IH i Hi). destruct (started x); simpl; lia.
Qed.

Lemma drain_message_loads u del om ev r :
  drain_message u del om = (ev, r) -> count_events is_load ev = 0.
Proof.
  destruct om as [m|]; simpl; [|by intros [= <- _]].
  unfold drain_message, acknowledge.
  destruct (msg_body m) as [b|]; [|by intros [= <- _]].
  destruct (msg_receipt m); [destruct del|]; simpl;
    try (destruct (u b)); by intros [= <- _].
Qed.

Lemma load_step u h s s' :
  step u h s s' ->
  count_events is_load (st_log s) = List.length (List.filter started (st_tasks s)) ->
  count_events is_load (st_log s') = List.length (List.filter started (st_tasks s')).
Proof.
  intros Hs Hc.
  destruct Hs as [s Hd Hc0|s om q del ev r Hd Hq Hm|s Hd|s r rs Hd Hk
                 |s r rs key Hd Hk Hl|s r rs key Hd Hk Hc0|s b k rs Hd
                 |s i t r Hi Hp|s i t a acts Hi Hp|s Hc0 Hs|s Hc0 Hs|s Hc0|s Hc0 Hl].
  2:{ unfold_setters. rewrite count_events_app, (drain_message_loads _ _ _ _ _ Hm). lia. }
  6:{ unfold_setters. rewrite started_count_app. simpl. lia. }
  6:{ unfold_setters. rewrite count_events_app.
      pose proof (started_count_insert _ _ _ {| t_uri := t_uri t; t_pc := TRun (ingest_after_load r) |} Hi) as E.
      assert (Ht : started t = false) by (unfold started; by rewrite Hp).
      rewrite Ht in E. simpl in E. rewrite count_events_one. simpl. lia. }
  6:{ rewrite exec_action_log, exec_action_tasks, count_events_app. unfold_setters.
      pose proof (started_count_insert _ _ _ {| t_uri := t_uri t; t_pc := TRun acts |} Hi) as E.
      assert (Ht : started t = true) by (unfold started; by rewrite Hp).
      rewrite Ht in E. simpl in E.
      assert (Ha : count_events is_load (action_events a) = 0) by (destruct a; reflexivity).
      lia. }
  all: unfold_setters; rewrite ?count_events_app, ?count_events_one; simpl; lia.
Qed.

(** After [Range], the log holds exactly one [s.loader.Load] call per
    launched [ingest] goroutine that has got past [Load]: no goroutine
    loads twice and nothing else calls [Load]. *)
Theorem load_once_per_task u h numcpu q s :
  reachable u h (range q (new_with numcpu)) s ->
  count_events is_load (st_log s) = List.length (List.filter started (st_tasks s)).
Proof.
  intros Hr.
  assert (H0 : count_events is_load (st_log (range q (new_with numcpu)))
               = List.length (List.filter started (st_tasks (range q (new_with numcpu)))))
    by reflexivity.
  revert H0. induction Hr as [s|s1 s2 s3 H12 _ IH]; intros H0; [done|].
  apply IH. exact (load_step _ _ _ _ H12 H0).
Qed.

Lemma load_once_per_task_witness :
  reachable (json_decoder [mixed_recs]) stop_handler (range [Some mixed_msg] (new_with 1)) mixed_s2 /\
  count_events is_load (st_log mixed_s2) = List.length (List.filter started (st_tasks mixed_s2)).
Proof.
  assert (Hr : reachable (json_decoder [mixed_recs]) stop_handler
                 (range [Some mixed_msg] (new_with 1)) mixed_s2).
  { apply (run_reachable _ _ [SDrain true; SDrain true; SDrain true; SDrain true;
                              SDrain true; SDrain true; SDrain true]).
    vm_compute. reflexivity. }
  split; [exact Hr|].
  exact (load_once_per_task _ _ 1 [Some mixed_msg] mixed_s2 Hr).
Defined.

(* ------------------------------------------------------------------ *)
(** * Claims over later states *)

(** ** C1: [Close] is a barrier on the semaphore *)

(** C1 (amended).  After [Range], in every reachable state in which
    [Close] has returned: [Close] has cancelled [ctx] and called
    [s.sqs.Close()] exactly once; it holds all [concurrency] units and
    the drain loop holds none; every launched [ingest] goroutine has
    loaded its object, run the handler or the failure reporting, and
    released its unit, so at most its deferred [s.monitor.Duration]
    call is left to run; and in every later state [Close] still holds
    all units and no new task is ever admitted. *)
Theorem close_returns_after_all_releases u h numcpu q s :
  reachable u h (range q (new_with numcpu)) s -> st_close s = CReturned ->
  st_cancelled s = true /\ count_events is_sqs_close (st_log s) = 1 /\
  st_cur s = st_size s /\ drain_units (st_drain s) = 0 /\
  Forall (fun t => t_pc t = TRun [ADuration ctxTag "s3sqs"] \/ t_pc t = TRun [])
         (st_tasks s) /\
  (forall s', reachable u h s s' ->
     st_close s' = CReturned /\ st_cur s' = st_size s' /\
     List.map t_uri (st_tasks s') = List.map t_uri (st_tasks s)).
Proof.
  intros Hr Hc.
  destruct (sqs_close_reachable _ _ _ _ _ Hr) as [Hcnt Hcan].
  rewrite Hc in Hcnt.
  split; [apply Hcan; by rewrite Hc|]. split; [exact Hcnt|].
  destruct (sem_inv_reachable _ _ _ _ Hr (sem_inv_range numcpu q)) as (Hwf & Hcur & Hle).
  unfold close_units in Hcur. rewrite Hc in Hcur.
  assert (Hh : held (st_tasks s) = 0) by lia.
  split; [lia|]. split; [lia|]. split.
  - apply held_zero in Hh.
    rewrite Forall_forall in *. intros t Ht.
    apply released_task_at_duration; auto.
  - intros s' Hr'. exact (returned_forever _ _ _ _ _ _ Hr Hc Hr').
Qed.

Lemma close_returns_after_all_releases_witness :
  reachable (json_decoder [one_rec]) stop_handler (range one_queue (new_with 1)) close_state /\
  st_close close_state = CReturned /\
  (st_cancelled close_state = true /\ count_events is_sqs_close (st_log close_state) = 1 /\
   st_cur close_state = st_size close_state /\ drain_units (st_drain close_state) = 0 /\
   Forall (fun t => t_pc t = TRun [ADuration ctxTag "s3sqs"] \/ t_pc t = TRun [])
          (st_tasks close_state) /\
   (forall s', reachable (json_decoder [one_rec]) stop_handler close_state s' ->
      st_close s' = CReturned /\ st_cur s' = st_size s' /\
      List.map t_uri (st_tasks s') = List.map t_uri (st_tasks close_state))).
Proof.
  assert (Hr : reachable (json_decoder [one_rec]) stop_handler
                 (range one_queue (new_with 1)) close_state).
  { apply (run_reachable _ _ close_choices). vm_compute. reflexivity. }
  assert (Hc : st_close close_state = CReturned) by (vm_compute; reflexivity).
  split; [exact Hr|]. split; [exact Hc|].
  exact (close_returns_after_all_releases _ _ 1 one_queue close_state Hr Hc).
Defined.

(** ** C4: the handler is called with the payload; its result is discarded *)

Lemma log_step u h s s' : step u h s s' -> exists l, st_log s' = (st_log s ++ l)%list.
Proof.
  destruct 1; try (rewrite exec_action_log); unfold_setters; eauto;
    exists []; by rewrite app_nil_r.
Qed.

Lemma log_reachable u h s s' : reachable u h s s' -> exists l, st_log s' = (st_log s ++ l)%list.
Proof.
  induction 1 as [s|s1 s2 s3 H12 _ [l IH]].
  - exists []. by rewrite app_nil_r.
  - destruct (log_step _ _ _ _ H12) as [l0 E]. exists (l0 ++ l)%list.
    by rewrite IH, E, app_assoc.
Qed.

Lemma handle_step u h s s' i uri data :
  st_tasks s !! i = Some {| t_uri := uri; t_pc := TRun (ingest_after_load (LoadOk data)) |} ->
  step u h s s' ->
  st_tasks s' !! i = Some {| t_uri := uri; t_pc := TRun (ingest_after_load (LoadOk data)) |} \/
  st_log s' = (st_log s ++ [EHandle data])%list.
Proof.
  intros Hi0 Hs.
  destruct Hs as [s Hd Hc0|s om q del ev r Hd Hq Hm|s Hd|s r rs Hd Hk
                 |s r rs key Hd Hk Hl|s r rs key Hd Hk Hc0|s b k rs Hd
                 |s j t r Hj Hp|s j t a acts Hj Hp|s Hc0 Hs|s Hc0 Hs|s Hc0|s Hc0 Hl].
  7:{ left. unfold_setters. by apply lookup_app_l_Some. }
  7:{ left. unfold_setters. destruct (decide (i = j)) as [->|Hne].
      - rewrite Hj in Hi0. injection Hi0 as ->. discriminate Hp.
      - by rewrite list_lookup_insert_ne. }
  7:{ rewrite exec_action_tasks, exec_action_log. unfold_setters.
      destruct (decide (i = j)) as [->|Hne].
      - right. rewrite Hj in Hi0. injection Hi0 as ->. simpl in Hp.
        injection Hp as <- <-. reflexivity.
      - left. by rewrite list_lookup_insert_ne. }
  all: left; unfold_setters; done.
Qed.

Lemma handle_reachable u h s1 s2 i uri data :
  st_tasks s1 !! i = Some {| t_uri := uri; t_pc := TRun (ingest_after_load (LoadOk data)) |} ->
  reachable u h s1 s2 ->
  st_tasks s2 !! i = Some {| t_uri := uri; t_pc := TRun (ingest_after_load (LoadOk data)) |} \/
  exists l, st_log s2 = (st_log s1 ++ l)%list /\ In (EHandle data) l.
Proof.
  intros Hi Hr. revert Hi.
  induction Hr as [s|s1 s2 s3 H12 H23 IH]; intros Hi; [by left|].
  destruct (handle_step _ _ _ _ _ _ _ Hi H12) as [Hi2|Hl2].
  - destruct (IH Hi2) as [Hi3|(l & E & Hin)]; [by left|].
    right. destruct (log_step _ _ _ _ H12) as [l0 E0].
    exists (l0 ++ l)%list. split; [by rewrite E, E0, app_assoc|].
    apply in_or_app. by right.
  - right. destruct (log_reachable _ _ _ _ H23) as [l E].
    exists (EHandle data :: l). split; [by rewrite E, Hl2, <- app_assoc|by left].
Qed.

(** C4.  Once [Load] has returned the payload [data] to an [ingest]
    goroutine (its remaining code is [ingest_after_load (LoadOk data)],
    whose first statement is [handler(data)]), every execution either
    leaves that goroutine exactly there or calls the handler with
    [data]: the goroutine cannot release its unit or finish without
    calling it.  And whatever the handler returns, the same states are
    reachable from any state: no step of the drain loop, of an [ingest]
    goroutine or of [Close] depends on the handler's boolean. *)
Theorem handler_result_ignored u h :
  (forall data, exists rest, ingest_after_load (LoadOk data) = AHandle data :: rest) /\
  (forall s1 s2 i uri data,
     st_tasks s1 !! i = Some {| t_uri := uri; t_pc := TRun (ingest_after_load (LoadOk data)) |} ->
     reachable u h s1 s2 ->
     st_tasks s2 !! i = Some {| t_uri := uri; t_pc := TRun (ingest_after_load (LoadOk data)) |} \/
     exists l, st_log s2 = (st_log s1 ++ l)%list /\ In (EHandle data) l) /\
  (forall h2 s s', reachable u h s s' <-> reachable u h2 s s').
Proof.
  split; [intros data; eexists; reflexivity|]. split.
  - intros s1 s2 i uri data Hi Hr. exact (handle_reachable _ _ _ _ _ _ _ Hi Hr).
  - intros h2 s s'.
    split; induction 1 as [|x y z Hxy _ IH]; try apply rtc_refl;
      (eapply rtc_l; [by eapply step_handler_swap|exact IH]).
Qed.

Lemma handler_result_ignored_witness :
  st_tasks load_state !! 0 =
    Some {| t_uri := "s3://b/a/b.json"; t_pc := TRun (ingest_after_load (LoadOk "payload")) |} /\
  reachable (json_decoder [one_rec]) stop_handler load_state release_state /\
  (st_tasks release_state !! 0 =
     Some {| t_uri := "s3://b/a/b.json"; t_pc := TRun (ingest_after_load (LoadOk "payload")) |} \/
   exists l, st_log release_state = (st_log load_state ++ l)%list /\ In (EHandle "payload") l).
Proof.
  assert (Hi : st_tasks load_state !! 0 =
    Some {| t_uri := "s3://b/a/b.json"; t_pc := TRun (ingest_after_load (LoadOk "payload")) |})
    by (vm_compute; reflexivity).
  assert (Hr : reachable (json_decoder [one_rec]) stop_handler load_state release_state).
  { apply (run_reachable _ _ [SAct 0]). vm_compute. reflexivity. }
  split; [exact Hi|]. split; [exact Hr|].
  exact (proj1 (proj2 (handler_result_ignored (json_decoder [one_rec]) stop_handler))
           load_state release_state 0 "s3://b/a/b.json" "payload" Hi Hr).
Defined.

(** ** C7: under cancellation a sibling can be skipped *)

(** C7 (counterexample).  A bad key does not itself stop its siblings,
    but cancellation of [ctx] during the range can: with one CPU, three
    good siblings are launched and still loading when [Close] cancels
    [ctx], the [Acquire] for the fourth good sibling fails, and the
    range ends without a task for it. *)
Lemma cancelled_sibling_gets_no_task :
  ~ (forall s1 s2 rs1 r rs2,
       reachable (json_decoder [five_recs]) stop_handler cancel_s0 s1 ->
       st_drain s1 = DRecords (rs1 ++ r :: rs2) -> query_unescape (rec_key r) = None ->
       reachable (json_decoder [five_recs]) stop_handler s1 s2 -> st_drain s2 = DSelect ->
       forall r' k, In r' (rs1 ++ rs2) -> query_unescape (rec_key r') = Some k ->
       In (locator (rec_bucket r') k) (List.map t_uri (st_tasks s2))).
Proof.
  intros H.
  assert (H01 : reachable (json_decoder [five_recs]) stop_handler cancel_s0 cancel_s1).
  { apply (run_reachable _ _ [SDrain true]). vm_compute. reflexivity. }
  assert (H12 : reachable (json_decoder [five_recs]) stop_handler cancel_s1 cancel_s2).
  { apply (run_reachable _ _ cancel_choices). vm_compute. reflexivity. }
  specialize (H cancel_s1 cancel_s2 [] (rec_of "b" "%")
                [rec_of "b" "k1"; rec_of "b" "k2"; rec_of "b" "k3"; rec_of "b" "k4"]
                H01 ltac:(vm_compute; reflexivity) ltac:(vm_compute; reflexivity) H12
                ltac:(vm_compute; reflexivity) (rec_of "b" "k4") "k4"
                ltac:(simpl; tauto) ltac:(vm_compute; reflexivity)).
  vm_compute in H. repeat destruct H as [H|H]; try discriminate; contradiction.
Qed.

(** ** C10: every task's locator *)

(** C10.  After [Range], in every reachable state, each launched task
    fetches "s3://" ++ bucket ++ "/" ++ [k], where the bucket and key
    belong to a record of a message from the queue whose body
    unmarshals, and [k] is what [url.QueryUnescape] makes of that key.
    When [drain] ranges over [rs] without cancellation, the tasks get
    exactly these locators in record order.  [url.QueryUnescape] maps
    every '+' to a space, every "%XX" with two hex digits to the byte
    [XX], and every other byte to itself; the result is defined iff
    every '%' starts a well-formed escape. *)
Theorem key_query_unescaped_into_locator u h numcpu q :
  (forall s, reachable u h (range q (new_with numcpu)) s ->
     Forall (fun uri => exists m body rs r k,
               In (Some m) q /\ msg_body m = Some body /\ u body = Some rs /\ In r rs /\
               query_unescape (rec_key r) = Some k /\
               uri = ("s3://" ++ rec_bucket r ++ "/" ++ k)%string)
            (List.map t_uri (st_tasks s))) /\
  (forall s1 s2 rs,
     st_drain s1 = DRecords rs -> records_run u h s1 s2 -> st_drain s2 = DSelect ->
     List.map t_uri (st_tasks s2)
       = (List.map t_uri (st_tasks s1) ++
          omap (fun r => option_map (fun k => ("s3://" ++ rec_bucket r ++ "/" ++ k)%string)
                                    (query_unescape (rec_key r))) rs)%list) /\
  (forall s, query_unescape (String "+" s) = option_map (String " ") (query_unescape s)) /\
  (forall h1 h2 s, ishex h1 = true -> ishex h2 = true ->
     query_unescape (String "%" (String h1 (String h2 s)))
     = option_map (String (ascii_of_nat (unhex h1 * 16 + unhex h2))) (query_unescape s)) /\
  (forall c s, Ascii.eqb c "%" = false -> Ascii.eqb c "+" = false ->
     query_unescape (String c s) = option_map (String c) (query_unescape s)).
Proof.
  split.
  { intros s Hr.
    destruct (named_reachable _ _ _ _ _ Hr) as (c & Hq & Hn).
    eapply Forall_impl; [exact Hn|].
    intros uri (m & b & rs & Hin & Hb & Hu & Hd).
    apply list_elem_of_In, list_elem_of_omap in Hd as (r & Hr' & Hk).
    destruct (query_unescape (rec_key r)) as [k|] eqn:Ek; [|discriminate].
    injection Hk as <-.
    exists m, b, rs, r, k. split; [rewrite Hq; apply in_or_app; by left|].
    split; [done|]. split; [done|]. split; [by apply list_elem_of_In|]. by split. }
  split.
  { intros s1 s2 rs Hd Hr Hd2. exact (proj1 (records_run_dispatch _ _ _ _ _ Hd Hr Hd2)). }
  split; [|split].
  - intros s. rewrite !query_unescape_alt. simpl.
    rewrite unescape_scan_shift. by destruct (unescape_scan s 0 false) as [[a b]|].
  - intros h1 h2 s H1 H2. rewrite !query_unescape_alt. simpl. rewrite H1, H2. simpl.
    rewrite unescape_scan_shift. by destruct (unescape_scan s 0 false) as [[a b]|].
  - intros c s Hp Hq. rewrite !query_unescape_alt. simpl. rewrite Hp, Hq.
    by destruct (unescape_scan s 0 false) as [[a b]|].
Qed.

Lemma key_query_unescaped_into_locator_witness :
  reachable (json_decoder [mixed_recs]) stop_handler (range [Some mixed_msg] (new_with 1)) mixed_s2 /\
  Forall (fun uri => exists m body rs r k,
            In (Some m) [Some mixed_msg] /\ msg_body m = Some body /\
            json_decoder [mixed_recs] body = Some rs /\ In r rs /\
            query_unescape (rec_key r) = Some k /\
            uri = ("s3://" ++ rec_bucket r ++ "/" ++ k)%string)
         (List.map t_uri (st_tasks mixed_s2)).
Proof.
  assert (Hr : reachable (json_decoder [mixed_recs]) stop_handler
                 (range [Some mixed_msg] (new_with 1)) mixed_s2).
  { apply (run_reachable _ _ [SDrain true; SDrain true; SDrain true; SDrain true;
                              SDrain true; SDrain true; SDrain true]).
    vm_compute. reflexivity. }
  split; [exact Hr|].
  exact (proj1 (key_query_unescaped_into_locator (json_decoder [mixed_recs]) stop_handler
                  1 [Some mixed_msg]) mixed_s2 Hr).
Defined.
